(** * Pipeline Health Monitor: a shallow embedding and its properties

    The dashboard client (frontend/src/api.ts, components/HealthCheckCard.tsx,
    pages/Dashboard.tsx, pages/Incidents.tsx) is embedded from its TypeScript
    source.  The monitoring core behind the HTTP interface (drift detector,
    check runner, incident manager, remediation engine, rightsizing engine)
    is a Python service whose sources are not part of the tree at hand; its
    operations are modelled from the written specification and every such
    definition says so in its header comment. *)

From Stdlib Require Import ZArith QArith Qabs Qminmax SpecFloat DecimalString.
From stdpp Require Import base option list strings gmap.

#[local] Set Warnings "-register-all,-clear-no-such-hyp".

(* ===================================================================== *)
(** * Part I: definitions *)
(* ===================================================================== *)

(** ** JavaScript values used by the client *)
Module JS.
Local Open Scope Z_scope.

(** A JavaScript [number] is an IEEE-754 binary64 value. *)
Definition number : Type := spec_float.

Definition prec : Z := 53.
Definition emax : Z := 1024.

Definition NaN : number := S754_nan.
Definition of_Z (z : Z) : number := binary_normalize prec emax z 0 false.

(** [a * b] on numbers. *)
Definition mul (a b : number) : number := SFmul prec emax a b.

(** ToBoolean on a number: [+0], [-0] and [NaN] are falsy. *)
Definition truthy (v : number) : bool :=
  match v with
  | S754_zero _ | S754_nan => false
  | S754_infinity _ | S754_finite _ _ _ => true
  end.

(** [v === 0]: true of both zeros, false of [NaN]. *)
Definition is_zero (v : number) : bool :=
  match v with
  | S754_zero _ => true
  | _ => false
  end.

(** The settled state of a promise. *)
Inductive Promise (E A : Type) : Type :=
| Resolved (a : A)
| Rejected (e : E).
Arguments Resolved {E A} a.
Arguments Rejected {E A} e.

(** Decimal rendering of an integer inside a template literal. *)
Definition show_Z (z : Z) : string := NilZero.string_of_int (Z.to_int z).

End JS.

(** ** frontend/src/api.ts: the wire types and the client functions

    Identifiers, intervals and HTTP status codes are whole numbers and are
    kept as [Z]; measured values are [number]s. *)
Module Api.
Import JS.
Local Open Scope Z_scope.

Record CheckRun := {
  run_id : Z;
  health_check_id : Z;
  health_check_name : option string;
  status : string;
  result_value : option number;
  result_details : option string;
  error_message : option string;
  started_at : string;
  completed_at : option string
}.

Record HealthCheck := {
  id : Z;
  name : string;
  description : option string;
  check_type : string;
  enabled : bool;
  interval_seconds : Z;
  threshold_value : option number;
  remediation_strategy : option string;
  last_run : option CheckRun
}.

(** Parsed JSON, as [response.json()] delivers it. *)
Inductive JSON :=
| JNull
| JBool (b : bool)
| JNumber (n : number)
| JString (s : string)
| JArray (items : list JSON)
| JObject (members : list (string * JSON)).

(** The members of [RequestInit] the client sets; [None] is an absent
    member. *)
Record RequestInit := {
  method : option string;
  headers : option (gmap string string);
  body : option string
}.

(** What the client reads of a [Response].  [json] is the outcome of
    [response.json()]: [None] when the body is not JSON text and the
    promise rejects with a [SyntaxError]. *)
Record Response := {
  ok : bool;
  response_status : Z;
  statusText : string;
  json : option JSON
}.

(** How a call of the client can reject. *)
Inductive Failure :=
| ApiError (message : string)
| FetchRejected (reason : string)
| BodySyntaxError.

Definition API_BASE : string := "/api".

(** An object literal given as a list of members; a member whose value
    is [undefined] is dropped by [JSON.stringify]. *)
Definition object_of (members : list (string * option JSON)) : JSON :=
  JObject (omap (λ kv, v ← kv.2; Some (kv.1, v)) members).

Definition opt_string (s : option string) : option JSON := JString <$> s.
Definition opt_number (z : option Z) : option JSON := (JNumber ∘ of_Z) <$> z.

(** ToBoolean on an optional string: [undefined] and [''] are falsy. *)
Definition nonempty (s : option string) : option string :=
  match s with
  | Some (String c r) => Some (String c r)
  | _ => None
  end.

(** [needle] occurs in [hay]. *)
Definition contains (needle hay : string) : Prop :=
  ∃ pre post, hay = pre +:+ needle +:+ post.

Section Client.
(** Built-ins of the host: [fetch], [JSON.stringify] and the encoding
    done by [URLSearchParams.prototype.toString]. *)
Variable fetch : string -> RequestInit -> Promise string Response.
Variable stringify : JSON -> string.
Variable form_urlencode : string -> string.

(** [{ headers: { 'Content-Type': ..., ...options?.headers }, ...options }] *)
Definition request_init (options : option RequestInit) : RequestInit :=
  let spread_headers : gmap string string :=
    default ∅ (options ≫= headers) ∪ {[ "Content-Type" := "application/json" ]} in
  match options with
  | None => {| method := None; headers := Some spread_headers; body := None |}
  | Some o =>
      {| method := method o;
         headers := Some (default spread_headers (headers o));
         body := body o |}
  end.

Definition error_message_of (response : Response) : string :=
  "API Error: " +:+ show_Z (response_status response) +:+ " " +:+ statusText response.

Definition fetchAPI (endpoint : string) (options : option RequestInit)
  : Promise Failure JSON :=
  match fetch (API_BASE +:+ endpoint) (request_init options) with
  | Rejected reason => Rejected (FetchRejected reason)
  | Resolved response =>
      if negb (ok response) then Rejected (ApiError (error_message_of response))
      else match json response with
           | Some v => Resolved v
           | None => Rejected BodySyntaxError
           end
  end.

(** The four ways a call through [fetchAPI] can end. *)
Inductive Settled (endpoint : string) (options : option RequestInit)
  : Promise Failure JSON -> Prop :=
| settled_json response v :
    fetch (API_BASE +:+ endpoint) (request_init options) = Resolved response ->
    ok response = true -> json response = Some v ->
    Settled endpoint options (Resolved v)
| settled_api_error response :
    fetch (API_BASE +:+ endpoint) (request_init options) = Resolved response ->
    ok response = false ->
    Settled endpoint options (Rejected (ApiError (error_message_of response)))
| settled_syntax_error response :
    fetch (API_BASE +:+ endpoint) (request_init options) = Resolved response ->
    ok response = true -> json response = None ->
    Settled endpoint options (Rejected BodySyntaxError)
| settled_fetch_rejected reason :
    fetch (API_BASE +:+ endpoint) (request_init options) = Rejected reason ->
    Settled endpoint options (Rejected (FetchRejected reason)).

Definition post (payload : option JSON) : option RequestInit :=
  Some {| method := Some "POST"; headers := None; body := stringify <$> payload |}.

Definition getHealthChecks := fetchAPI "/healthchecks" None.

Definition runHealthCheck (checkId : option Z) (checkType : option string) :=
  fetchAPI "/healthchecks/run"
    (post (Some (object_of [("check_id", opt_number checkId);
                            ("check_type", opt_string checkType)]))).

Definition runAllHealthChecks := fetchAPI "/healthchecks/run-all" (post None).

Definition getCheckHistory (checkId : Z) (limit : option Z) :=
  fetchAPI ("/healthchecks/" +:+ show_Z checkId +:+ "/history?limit="
            +:+ show_Z (default 50 limit)) None.

Definition getIncidents (status severity : option string) :=
  let params :=
    omap (λ kv, v ← nonempty kv.2; Some (kv.1 +:+ "=" +:+ form_urlencode v))
         [("status", status); ("severity", severity)] in
  let query := String.concat "&" params in
  fetchAPI ("/incidents" +:+ (if String.eqb query "" then "" else "?" +:+ query)) None.

Definition createIncident (title : string) (description severity : option string) :=
  fetchAPI "/incidents"
    (post (Some (object_of [("title", Some (JString title));
                            ("description", opt_string description);
                            ("severity", Some (JString (default "medium" severity)))]))).

Definition remediate (incidentId : Z) (strategy : string) (dryRun : option bool) :=
  fetchAPI "/remediate"
    (post (Some (object_of [("incident_id", Some (JNumber (of_Z incidentId)));
                            ("strategy", Some (JString strategy));
                            ("dry_run", Some (JBool (default false dryRun)))]))).

Definition resolveIncident (incidentId : Z) (notes : option string) :=
  fetchAPI ("/incidents/" +:+ show_Z incidentId +:+ "/resolve")
    (post (Some (object_of [("resolution_notes", opt_string notes)]))).

Definition getIncidentsSummary := fetchAPI "/incidents/summary" None.
Definition getInfrastructureSummary := fetchAPI "/infrastructure/summary" None.

Definition getInstanceMetrics (provider : option string) :=
  fetchAPI ("/infrastructure/metrics" +:+
            match nonempty provider with
            | Some p => "?provider=" +:+ p
            | None => ""
            end) None.

Definition getRightsizingOpportunities := fetchAPI "/rightsizing/opportunities" None.
Definition getCostSummary := fetchAPI "/infrastructure/cost-summary" None.

Definition injectFailure (failureType : string) (severity : option string) :=
  fetchAPI "/inject-failure"
    (post (Some (object_of [("failure_type", Some (JString failureType));
                            ("severity", Some (JString (default "medium" severity)))]))).

Definition clearFailures := fetchAPI "/clear-failures" (post None).
Definition getModelHealth := fetchAPI "/model-health" None.

(** One constructor per exported function of the module. *)
Inductive ApiCall :=
| GetHealthChecks
| RunHealthCheck (checkId : option Z) (checkType : option string)
| RunAllHealthChecks
| GetCheckHistory (checkId : Z) (limit : option Z)
| GetIncidents (status severity : option string)
| CreateIncident (title : string) (description severity : option string)
| Remediate (incidentId : Z) (strategy : string) (dryRun : option bool)
| ResolveIncident (incidentId : Z) (notes : option string)
| GetIncidentsSummary
| GetInfrastructureSummary
| GetInstanceMetrics (provider : option string)
| GetRightsizingOpportunities
| GetCostSummary
| InjectFailure (failureType : string) (severity : option string)
| ClearFailures
| GetModelHealth.

Definition invoke (c : ApiCall) : Promise Failure JSON :=
  match c with
  | GetHealthChecks => getHealthChecks
  | RunHealthCheck i t => runHealthCheck i t
  | RunAllHealthChecks => runAllHealthChecks
  | GetCheckHistory i l => getCheckHistory i l
  | GetIncidents s v => getIncidents s v
  | CreateIncident t d s => createIncident t d s
  | Remediate i s d => remediate i s d
  | ResolveIncident i n => resolveIncident i n
  | GetIncidentsSummary => getIncidentsSummary
  | GetInfrastructureSummary => getInfrastructureSummary
  | GetInstanceMetrics p => getInstanceMetrics p
  | GetRightsizingOpportunities => getRightsizingOpportunities
  | GetCostSummary => getCostSummary
  | InjectFailure f s => injectFailure f s
  | ClearFailures => clearFailures
  | GetModelHealth => getModelHealth
  end.
End Client.

End Api.

(** ** components/HealthCheckCard.tsx *)
Module HealthCheckCard.
Import JS Api.

Section Card.
(** [Number.prototype.toFixed], a built-in of the host. *)
Variable toFixed : number -> nat -> string.

(** [check.last_run?.result_value]: [None] stands for both [null] and
    the [undefined] of a short-circuited optional chain. *)
Definition last_result_value (check : HealthCheck) : option number :=
  r ← last_run check; result_value r.

Definition formatValue (check : HealthCheck) : string :=
  match last_result_value check with
  | None => "N/A"
  | Some v =>
      if negb (truthy v) then "N/A"
      else if String.eqb (check_type check) "latency" then
        toFixed v 1 +:+ "ms"
      else if String.eqb (check_type check) "correctness" then
        toFixed (mul v (of_Z 100)) 1 +:+ "%"
      else if String.eqb (check_type check) "drift" then
        "KS: " +:+ toFixed v 3
      else if String.eqb (check_type check) "resource" then
        toFixed v 1 +:+ "%"
      else toFixed v 2
  end.
End Card.

End HealthCheckCard.

(** ** pages/Dashboard.tsx *)
Module Dashboard.
Import Api.

Record StatusCounts := { passed : nat; failed : nat; pending : nat }.

(** The body of the [forEach] callback: one counter is incremented. *)
Definition count_check (counts : StatusCounts) (check : HealthCheck) : StatusCounts :=
  match last_run check with
  | None =>
      {| passed := passed counts; failed := failed counts; pending := S (pending counts) |}
  | Some r =>
      if String.eqb (status r) "passed" then
        {| passed := S (passed counts); failed := failed counts; pending := pending counts |}
      else
        {| passed := passed counts; failed := S (failed counts); pending := pending counts |}
  end.

Definition getStatusCounts (healthChecks : list HealthCheck) : StatusCounts :=
  foldl count_check {| passed := 0; failed := 0; pending := 0 |} healthChecks.

Inductive Bucket := Pending | Passing | Failing.

#[global] Instance Bucket_eq_dec : EqDecision Bucket.
Proof. solve_decision. Defined.

(** The bucket a check belongs to, stated apart from the fold: pending
    without a last run, passing when the last run's status is ['passed'],
    failing otherwise. *)
Definition bucket (check : HealthCheck) : Bucket :=
  match last_run check with
  | None => Pending
  | Some r => if String.eqb (status r) "passed" then Passing else Failing
  end.

Definition in_bucket (b : Bucket) (l : list HealthCheck) : nat :=
  length (filter (λ c, bucket c = b) l).

End Dashboard.

(** ** The drift detector *)
Module Drift.
Local Open Scope Q_scope.

Definition Qlt_bool (a b : Q) : bool := negb (Qle_bool b a).

(** Modelled from the spec: the empirical distribution function of a
    sample (the detector itself is part of the absent service): the
    share of its points that are at most [x]. *)
Definition count_le (s : list Q) (x : Q) : nat :=
  length (List.filter (λ y, Qle_bool y x) s).

(** Modelled from the spec: F_s(x), the count above over the sample size. *)
Definition ecdf (s : list Q) (x : Q) : Q :=
  inject_Z (Z.of_nat (count_le s x)) / inject_Z (Z.of_nat (length s)).

(** Modelled from the spec: "all distinct values from both samples". *)
Fixpoint distinct (l : list Q) : list Q :=
  match l with
  | [] => []
  | x :: r => if existsb (Qeq_bool x) r then distinct r else x :: distinct r
  end.

(** The largest value of [f] over the points [l], and at least 0. *)
Definition sup_over (f : Q -> Q) (l : list Q) : Q :=
  foldr (λ x acc, Qmax (f x) acc) 0 l.

(** Modelled from the spec: the evaluation points of the detector, the
    distinct values of the two samples together. *)
Definition evaluation_points (baseline current : list Q) : list Q :=
  distinct (baseline ++ current).

(** Modelled from the spec: |F_baseline(x) - F_current(x)|. *)
Definition gap (baseline current : list Q) (x : Q) : Q :=
  Qabs (ecdf baseline x - ecdf current x).

(** Modelled from the spec: the two-sample Kolmogorov-Smirnov statistic,
    the largest gap between the two distribution functions over the
    evaluation points. *)
Definition ks_statistic (baseline current : list Q) : Q :=
  sup_over (gap baseline current) (evaluation_points baseline current).

(** Modelled from the spec: the detector's configuration, result and
    error (section 4.1). *)
Record DriftConfig := { threshold : Q; min_samples : nat }.
Record DriftResult := { D : Q; passed : bool }.
Inductive DriftError := InsufficientDataError.

(** Modelled from the spec: the detector's contract (section 4.1): fail
    when either sample is below the minimum size, otherwise return the
    statistic and [passed = D < threshold]. *)
Definition detect_drift (cfg : DriftConfig) (baseline current : list Q)
  : DriftError + DriftResult :=
  if (length baseline <? min_samples cfg)%nat || (length current <? min_samples cfg)%nat
  then inl InsufficientDataError
  else
    let d := ks_statistic baseline current in
    inr {| D := d; passed := Qlt_bool d (threshold cfg) |}.

End Drift.

(** ** The monitoring core: data model and store *)
Module Core.

(** Modelled from the spec: the closed variants of section 3 and of the
    design notes of section 9 (the service's own types are not in the
    tree). *)
Inductive CheckType := Latency | Correctness | DriftCheck | Resource.
Inductive RunStatus := Passed | Failed | Running | Error.
Inductive Severity := Low | Medium | High | Critical.
Inductive IncidentStatus := Open | Remediating | Resolved | Escalated.
Inductive Strategy := RestartService | ClearCache | RollbackModel | ScaleHint.

#[global] Instance RunStatus_eq_dec : EqDecision RunStatus.
Proof. solve_decision. Defined.
#[global] Instance IncidentStatus_eq_dec : EqDecision IncidentStatus.
Proof. solve_decision. Defined.

(** Modelled from the spec: the records of section 3 (the service's
    database models are not in the tree).  Identities are positions in
    the append-only tables; times are ticks of a logical clock. *)
Record HealthCheck := {
  hc_id : nat;
  hc_name : string;
  check_type : CheckType;
  enabled : bool;
  interval_seconds : nat;
  threshold_value : Q;
  remediation_strategy : Strategy
}.

Record CheckRun := {
  run_id : nat;
  health_check : nat;
  status : RunStatus;
  result_value : option Q;
  result_details : string;
  error_message : option string;
  started_at : nat;
  completed_at : nat
}.

Record RemediationAttempt := {
  incident_id : nat;
  strategy : Strategy;
  dry_run : bool;
  success : bool;
  details : string;
  attempted_at : nat;
  attempt_completed_at : nat
}.

Record Incident := {
  title : string;
  severity : Severity;
  inc_status : IncidentStatus;
  trigger : CheckRun;
  attached_runs : list CheckRun;
  triggered_at : nat;
  resolved_at : option nat;
  resolution_notes : option string;
  attempts : list RemediationAttempt
}.

(** Modelled from the spec: the configured limits the core reads. *)
Record Config := {
  MAX_REMEDIATION_RETRIES : nat;
  MIN_DRIFT_SAMPLES : nat
}.

(** Modelled from the spec: the external interfaces of section 6.  A
    metrics source answers with a value or with the message of the
    exception it raised; a strategy executor acts on the target system
    and has a preview mode that only reports. *)
Record MetricsSource := {
  sample : CheckType -> nat -> string + Q;
  sample_distribution : nat -> string + (list Q * list Q)
}.

Record Executors (Sys : Type) := {
  execute : Strategy -> Sys -> (bool * string) * Sys;
  preview : Strategy -> Sys -> bool * string
}.
Arguments execute {Sys} _ _ _.
Arguments preview {Sys} _ _ _.

(** Modelled from the spec: the persistent store of section 6 together
    with the target system the executors act on and a logical clock. *)
Record Store (Sys : Type) := {
  health_checks : list HealthCheck;
  check_runs : list CheckRun;
  incidents : list Incident;
  target : Sys;
  clock : nat
}.
Arguments health_checks {Sys} _.
Arguments check_runs {Sys} _.
Arguments incidents {Sys} _.
Arguments target {Sys} _.
Arguments clock {Sys} _.

(** Modelled from the spec: the caller errors of section 7. *)
Inductive CoreError :=
| UnknownIncidentError (incident : nat)
| UnknownStrategyError (name : string).

(** Modelled from the spec: [resolved] and [escalated] are terminal
    (section 4.3). *)
Definition terminal (st : IncidentStatus) : bool :=
  match st with
  | Resolved | Escalated => true
  | Open | Remediating => false
  end.

Definition non_terminal (i : Incident) : Prop := terminal (inc_status i) = false.

(** Modelled from the spec: the retry counter of an Incident, its failed
    real attempts; dry runs do not count (section 4.4). *)
Definition failed_real (a : RemediationAttempt) : bool :=
  negb (dry_run a) && negb (success a).

Definition retry_count (i : Incident) : nat :=
  length (List.filter failed_real (attempts i)).

(** Modelled from the spec: the four named strategies (section 4.4);
    any other name is unrecognized. *)
Definition parse_strategy (name : string) : option Strategy :=
  if String.eqb name "restart_service" then Some RestartService
  else if String.eqb name "clear_cache" then Some ClearCache
  else if String.eqb name "rollback_model" then Some RollbackModel
  else if String.eqb name "scale_hint" then Some ScaleHint
  else None.

(** Modelled from the spec: severity is graded from the check type
    (section 4.3). *)
Definition grade (t : CheckType) : Severity :=
  match t with
  | Correctness => Critical
  | Latency => High
  | DriftCheck | Resource => Medium
  end.

(** *** A state-and-error monad over the store.  A write made before an
    error is raised stays in the store, as in the service. *)
Section Monad.
Context {Sys : Type}.

Definition M (A : Type) : Type := Store Sys -> (CoreError + A) * Store Sys.

Definition ret {A} (a : A) : M A := λ s, (inr a, s).
Definition bind {A B} (c : M A) (k : A -> M B) : M B :=
  λ s, match c s with
       | (inl e, s') => (inl e, s')
       | (inr a, s') => k a s'
       end.
Definition throw {A} (e : CoreError) : M A := λ s, (inl e, s).
Definition get : M (Store Sys) := λ s, (inr s, s).
Definition put (s' : Store Sys) : M unit := λ _, (inr tt, s').

(** Read the clock and advance it. *)
Definition tick : M nat :=
  λ s, (inr (clock s),
        {| health_checks := health_checks s; check_runs := check_runs s;
           incidents := incidents s; target := target s; clock := S (clock s) |}).

Definition set_incidents (l : list Incident) : M unit :=
  λ s, (inr tt,
        {| health_checks := health_checks s; check_runs := check_runs s;
           incidents := l; target := target s; clock := clock s |}).

Definition set_target (t : Sys) : M unit :=
  λ s, (inr tt,
        {| health_checks := health_checks s; check_runs := check_runs s;
           incidents := incidents s; target := t; clock := clock s |}).

Definition append_run (r : CheckRun) : M unit :=
  λ s, (inr tt,
        {| health_checks := health_checks s; check_runs := check_runs s ++ [r];
           incidents := incidents s; target := target s; clock := clock s |}).
End Monad.

Notation "'let*' x ':=' c 'in' k" := (bind c (λ x, k))
  (at level 10, x name, c at level 200, k at level 200,
   format "'[v' 'let*'  x  ':='  c  'in' '/' k ']'").

Section Operations.
Context {Sys : Type}.
Variable cfg : Config.
Variable executors : Executors Sys.

Local Abbreviation M := (M (Sys:=Sys)).

(** *** Incident Manager *)

(** Modelled from the spec: a non-terminal Incident of HealthCheck [c],
    found through its triggering CheckRun (the deduplication key of
    section 3). *)
Definition active_for (c : nat) (i : Incident) : Prop :=
  non_terminal i ∧ health_check (trigger i) = c.

#[global] Instance active_for_dec c i : Decision (active_for c i).
Proof. unfold active_for, non_terminal. apply _. Defined.

(** Modelled from the spec: attaching a further failing CheckRun to an
    existing Incident. *)
Definition attach (r : CheckRun) (i : Incident) : Incident :=
  {| title := title i; severity := severity i; inc_status := inc_status i;
     trigger := trigger i; attached_runs := attached_runs i ++ [r];
     triggered_at := triggered_at i; resolved_at := resolved_at i;
     resolution_notes := resolution_notes i; attempts := attempts i |}.

(** Modelled from the spec: a new Incident is [open], graded from the
    check type, and linked to the triggering CheckRun. *)
Definition open_incident (name : string) (t : CheckType) (r : CheckRun) (now : nat)
  : Incident :=
  {| title := name; severity := grade t; inc_status := Open;
     trigger := r; attached_runs := []; triggered_at := now;
     resolved_at := None; resolution_notes := None; attempts := [] |}.

(** Modelled from the spec: the Incident Manager's handling of a
    failing CheckRun (section 4.3, "open"): attach the run to the
    non-terminal Incident of its HealthCheck when there is one,
    otherwise open a new Incident. *)
Definition on_failing_run (name : string) (t : CheckType) (r : CheckRun) : M unit :=
  let* s := get in
  match list_find (active_for (health_check r)) (incidents s) with
  | Some (k, _) => set_incidents (alter (attach r) k (incidents s))
  | None =>
      let* now := tick in
      set_incidents (incidents s ++ [open_incident name t r now])
  end.

(** *** Health Check Runner *)

(** Modelled from the spec: what one evaluation yields: a verdict with
    the sampled value, or the message of a captured exception. *)
Record Outcome := {
  out_status : RunStatus;
  out_value : option Q;
  out_error : option string
}.

Definition verdict (pass : bool) (v : Q) : Outcome :=
  {| out_status := if pass then Passed else Failed;
     out_value := Some v; out_error := None |}.

Definition raised (msg : string) : Outcome :=
  {| out_status := Error; out_value := None; out_error := Some msg |}.

(** Modelled from the spec: evaluation dispatches on the check type
    (section 4.2); an exception of the source, and the detector's
    [InsufficientDataError], are captured as an [Error] outcome. *)
Definition evaluate (m : MetricsSource) (hc : HealthCheck) : Outcome :=
  match check_type hc with
  | Latency =>
      match sample m Latency (hc_id hc) with
      | inl msg => raised msg
      | inr v => verdict (Qle_bool v (threshold_value hc)) v
      end
  | Correctness =>
      match sample m Correctness (hc_id hc) with
      | inl msg => raised msg
      | inr v => verdict (Qle_bool (threshold_value hc) v) v
      end
  | DriftCheck =>
      match sample_distribution m (hc_id hc) with
      | inl msg => raised msg
      | inr (baseline, current) =>
          match Drift.detect_drift
                  {| Drift.threshold := threshold_value hc;
                     Drift.min_samples := MIN_DRIFT_SAMPLES cfg |}
                  baseline current with
          | inl Drift.InsufficientDataError => raised "InsufficientDataError"
          | inr d => verdict (Drift.passed d) (Drift.D d)
          end
      end
  | Resource =>
      match sample m Resource (hc_id hc) with
      | inl msg => raised msg
      | inr v => verdict (Qle_bool v (threshold_value hc)) v
      end
  end.

(** Modelled from the spec: "on failure ([status = failed] or [error])". *)
Definition failing (st : RunStatus) : bool :=
  match st with
  | Failed | Error => true
  | Passed | Running => false
  end.

(** Modelled from the spec: one evaluation writes one CheckRun between
    two readings of the clock and hands a failing run to the Incident
    Manager before it returns (section 4.2). *)
Definition run_check (m : MetricsSource) (hc : HealthCheck) : M CheckRun :=
  let* t0 := tick in
  let out := evaluate m hc in
  let* t1 := tick in
  let* s := get in
  let r := {| run_id := length (check_runs s); health_check := hc_id hc;
              status := out_status out; result_value := out_value out;
              result_details := hc_name hc; error_message := out_error out;
              started_at := t0; completed_at := t1 |} in
  let* _ := append_run r in
  let* _ := (if failing (status r)
             then on_failing_run (hc_name hc) (check_type hc) r
             else ret tt) in
  ret r.

(** Modelled from the spec: [run(check_id)] evaluates that one check now,
    whatever its interval; an unknown id runs nothing. *)
Definition run (m : MetricsSource) (check_id : nat) : M (option CheckRun) :=
  let* s := get in
  match List.find (λ hc, Nat.eqb (hc_id hc) check_id) (health_checks s) with
  | Some hc => let* r := run_check m hc in ret (Some r)
  | None => ret None
  end.

(** Run [f] on every element in order, stopping at the first error. *)
Fixpoint for_each {A B} (f : A -> M B) (l : list A) : M (list B) :=
  match l with
  | [] => ret []
  | a :: l' =>
      let* b := f a in
      let* bs := for_each f l' in
      ret (b :: bs)
  end.

(** Modelled from the spec: the aggregate [run_all()] returns, pass/fail
    counts with the individual results; [failed] counts every run that
    did not pass. *)
Record Aggregate := {
  total : nat;
  passed : nat;
  failed : nat;
  results : list CheckRun
}.

Definition is_passed (r : CheckRun) : bool := bool_decide (status r = Passed).

Definition aggregate (runs : list CheckRun) : Aggregate :=
  {| total := length runs;
     passed := length (List.filter is_passed runs);
     failed := length (List.filter (λ r, negb (is_passed r)) runs);
     results := runs |}.

(** Modelled from the spec: [run_all()] evaluates every enabled
    HealthCheck and returns the counts with the individual results. *)
Definition run_all (m : MetricsSource) : M Aggregate :=
  let* s := get in
  let* runs := for_each (run_check m) (List.filter enabled (health_checks s)) in
  ret (aggregate runs).

(** *** Remediation Engine *)

(** Modelled from the spec: the writes of the state machine of section
    4.3 on one Incident: a change of status, an appended attempt, and
    resolution with its timestamp and notes. *)
Definition with_status (st : IncidentStatus) (i : Incident) : Incident :=
  {| title := title i; severity := severity i; inc_status := st;
     trigger := trigger i; attached_runs := attached_runs i;
     triggered_at := triggered_at i; resolved_at := resolved_at i;
     resolution_notes := resolution_notes i; attempts := attempts i |}.

Definition record_attempt (a : RemediationAttempt) (i : Incident) : Incident :=
  {| title := title i; severity := severity i; inc_status := inc_status i;
     trigger := trigger i; attached_runs := attached_runs i;
     triggered_at := triggered_at i; resolved_at := resolved_at i;
     resolution_notes := resolution_notes i; attempts := attempts i ++ [a] |}.

Definition resolved (now : nat) (notes : option string) (i : Incident) : Incident :=
  {| title := title i; severity := severity i; inc_status := Resolved;
     trigger := trigger i; attached_runs := attached_runs i;
     triggered_at := triggered_at i; resolved_at := Some now;
     resolution_notes := notes; attempts := attempts i |}.

(** Apply [f] to the Incident stored under [k]. *)
Definition update_incident (k : nat) (f : Incident -> Incident) : M unit :=
  let* s := get in
  set_incidents (alter f k (incidents s)).

(** Modelled from the spec: the transition after a real attempt
    (section 4.3): success resolves and stamps [resolved_at]; a failure
    escalates once the retry counter has reached the limit and
    otherwise returns the Incident to [Open]. *)
Definition settle (now : nat) (ok : bool) (i : Incident) : Incident :=
  if ok then resolved now (resolution_notes i) i
  else if (MAX_REMEDIATION_RETRIES cfg <=? retry_count i)%nat
       then with_status Escalated i
       else with_status Open i.

(** Modelled from the spec: the caller errors of [remediate] (section
    4.4): the Incident is looked up first, then the strategy name is
    resolved; nothing is written before both have passed. *)
Definition accept_request (id : nat) (name : string) : M (Incident * Strategy) :=
  let* s := get in
  match incidents s !! id with
  | None => throw (UnknownIncidentError id)
  | Some i =>
      if terminal (inc_status i) then throw (UnknownIncidentError id)
      else match parse_strategy name with
           | None => throw (UnknownStrategyError name)
           | Some st => ret (i, st)
           end
  end.

(** Modelled from the spec: a dry run (section 4.4): the executor is only
    asked for a preview and the attempt is recorded; status and retry
    counter are not touched. *)
Definition dry_run_attempt (id : nat) (st : Strategy) : M RemediationAttempt :=
  let* t0 := tick in
  let* s := get in
  let out := preview executors st (target s) in
  let* t1 := tick in
  let a := {| incident_id := id; strategy := st; dry_run := true;
              success := out.1; details := out.2;
              attempted_at := t0; attempt_completed_at := t1 |} in
  let* _ := update_incident id (record_attempt a) in
  ret a.

(** Modelled from the spec: "open -> remediating: entered when the
    Remediation Engine begins an attempt". *)
Definition begin_attempt (id : nat) : M unit :=
  update_incident id (with_status Remediating).

(** Modelled from the spec: a real attempt (section 4.4): the strategy is
    executed on the target system, the attempt is recorded with its
    outcome, and the Incident moves on by [settle]. *)
Definition real_attempt (id : nat) (st : Strategy) : M RemediationAttempt :=
  let* t0 := tick in
  let* s := get in
  let out := execute executors st (target s) in
  let* _ := set_target out.2 in
  let* t1 := tick in
  let a := {| incident_id := id; strategy := st; dry_run := false;
              success := out.1.1; details := out.1.2;
              attempted_at := t0; attempt_completed_at := t1 |} in
  let* _ := update_incident id (λ i, settle t1 (success a) (record_attempt a i)) in
  ret a.

(** Modelled from the spec: [remediate(incident_id, strategy, dry_run)]
    (section 4.4). *)
Definition remediate (id : nat) (name : string) (dry : bool) : M RemediationAttempt :=
  let* req := accept_request id name in
  if dry then dry_run_attempt id req.2
  else let* _ := begin_attempt id in real_attempt id req.2.

(** Modelled from the spec: manual resolution with notes, permitted
    from any non-terminal state (section 4.3). *)
Definition resolve_incident (id : nat) (notes : string) : M unit :=
  let* s := get in
  match incidents s !! id with
  | None => throw (UnknownIncidentError id)
  | Some i =>
      if terminal (inc_status i) then throw (UnknownIncidentError id)
      else let* now := tick in update_incident id (resolved now (Some notes))
  end.

(** *** The system as a transition system *)

(** Modelled from the spec: the operations the core exposes (section 6),
    as the events of a transition system. *)
Inductive Event :=
| EvRun (m : MetricsSource) (check_id : nat)
| EvRunAll (m : MetricsSource)
| EvRemediate (id : nat) (name : string) (dry : bool)
| EvResolve (id : nat) (notes : string).

Definition step (e : Event) (s : Store Sys) : Store Sys :=
  match e with
  | EvRun m c => (run m c s).2
  | EvRunAll m => (run_all m s).2
  | EvRemediate id name dry => (remediate id name dry s).2
  | EvResolve id notes => (resolve_incident id notes s).2
  end.

Definition init_store (checks : list HealthCheck) (sys : Sys) : Store Sys :=
  {| health_checks := checks; check_runs := []; incidents := [];
     target := sys; clock := 0 |}.

(** The stores the operations can produce from an empty one, in any
    order of events. *)
Inductive reachable : Store Sys -> Prop :=
| reachable_init checks sys : reachable (init_store checks sys)
| reachable_step e s : reachable s -> reachable (step e s).

(** *** Vocabulary of the properties *)

(** At most one non-terminal Incident for each HealthCheck. *)
Definition dedup (l : list Incident) : Prop :=
  ∀ j k a b,
    l !! j = Some a -> l !! k = Some b ->
    non_terminal a -> non_terminal b ->
    health_check (trigger a) = health_check (trigger b) -> j = k.

(** An Incident whose retry counter has reached the limit is escalated. *)
Definition exhausted (i : Incident) : Prop :=
  0 < retry_count i ∧ MAX_REMEDIATION_RETRIES cfg ≤ retry_count i.

Definition esc_ok (i : Incident) : Prop :=
  exhausted i -> inc_status i = Escalated.

(** The two ways the operations change the table: an Incident that is not
    terminal is rewritten in place, keeping its trigger; or an Incident is
    opened for a HealthCheck that has no non-terminal one. *)
Inductive table_step : list Incident -> list Incident -> Prop :=
| step_update l k f i :
    l !! k = Some i -> non_terminal i ->
    trigger (f i) = trigger i -> (esc_ok i -> esc_ok (f i)) ->
    table_step l (alter f k l)
| step_open l i :
    Forall (λ x, ¬ active_for (health_check (trigger i)) x) l ->
    inc_status i = Open -> attempts i = [] ->
    table_step l (l ++ [i]).

Definition table_steps := rtc table_step.

(** An operation that returns [a] and leaves everything but the Incident
    table and the clock as it was, moving the table by [table_steps]. *)
Definition returns {A} (c : M A) (s : Store Sys) (a : A) (s' : Store Sys) : Prop :=
  c s = (inr a, s')
  ∧ health_checks s' = health_checks s
  ∧ table_steps (incidents s) (incidents s').

(** The attempt a dry run records, and the store it leaves. *)
Definition dry_record (id : nat) (st : Strategy) (s : Store Sys) : RemediationAttempt :=
  {| incident_id := id; strategy := st; dry_run := true;
     success := (preview executors st (target s)).1;
     details := (preview executors st (target s)).2;
     attempted_at := clock s; attempt_completed_at := S (clock s) |}.

Definition after_dry (id : nat) (st : Strategy) (s : Store Sys) : Store Sys :=
  {| health_checks := health_checks s; check_runs := check_runs s;
     incidents := alter (record_attempt (dry_record id st s)) id (incidents s);
     target := target s; clock := S (S (clock s)) |}.

(** The attempt a real run records, and the stores before and after the
    strategy is executed. *)
Definition real_record (id : nat) (st : Strategy) (s : Store Sys) : RemediationAttempt :=
  {| incident_id := id; strategy := st; dry_run := false;
     success := (execute executors st (target s)).1.1;
     details := (execute executors st (target s)).1.2;
     attempted_at := clock s; attempt_completed_at := S (clock s) |}.

Definition begun (id : nat) (s : Store Sys) : Store Sys :=
  {| health_checks := health_checks s; check_runs := check_runs s;
     incidents := alter (with_status Remediating) id (incidents s);
     target := target s; clock := clock s |}.

Definition after_real (id : nat) (st : Strategy) (s : Store Sys) : Store Sys :=
  {| health_checks := health_checks s; check_runs := check_runs s;
     incidents :=
       alter (λ i, settle (S (clock s)) (success (real_record id st s))
                     (record_attempt (real_record id st s) i))
             id (alter (with_status Remediating) id (incidents s));
     target := (execute executors st (target s)).2; clock := S (S (clock s)) |}.

(** The store after a sequence of events. *)
Definition after (es : list Event) (s : Store Sys) : Store Sys :=
  foldl (λ s e, step e s) s es.

(** The metrics source raises [msg] when asked for the signal of [hc]. *)
Definition source_raises (m : MetricsSource) (hc : HealthCheck) (msg : string) : Prop :=
  match check_type hc with
  | DriftCheck => sample_distribution m (hc_id hc) = inl msg
  | t => sample m t (hc_id hc) = inl msg
  end.

End Operations.
End Core.

(** ** The rightsizing engine *)
Module Rightsizing.
Local Open Scope Q_scope.

(** Modelled from the spec: the catalog of instance types with their
    capacity and hourly price, and the per-instance aggregates over the
    lookback window (sections 3, 4.5 and 6; the engine is part of the
    absent service). *)
Record InstanceType := {
  type_name : string;
  capacity : positive;
  hourly_price : Q
}.

Record InstanceAggregate := {
  instance_id : string;
  provider : string;
  instance_type : string;
  avg_cpu : Q;
  p95_cpu : Q;
  p95_memory : Q;
  sample_count : nat;
  window_hours : nat
}.

Record Config := {
  idle_threshold : Q;
  high_utilization_threshold : Q;
  low_utilization_threshold : Q;
  safety_ceiling : Q;
  hours_per_month : Q;
  min_sample_count : nat;
  min_window_hours : nat
}.

(** Modelled from the spec: the classes of section 4.5 ([Adequate] for
    an instance that is in none of the three) and the confidence grades. *)
Inductive Class := Idle | Overutilized | Candidate | Adequate.
Inductive Confidence := ConfHigh | ConfMedium | ConfLow.

(** Modelled from the spec: the derived record of section 3. *)
Record RightsizingOpportunity := {
  opp_instance_id : string;
  opp_provider : string;
  current_type : InstanceType;
  recommended_type : InstanceType;
  utilization_basis : Q;
  estimated_monthly_savings : Q;
  confidence : Confidence
}.

(** Modelled from the spec: idle when the average CPU is below the idle
    threshold, overutilized when P95 is above the high threshold, a
    candidate when P95 stays below the low threshold. *)
Definition classify (cfg : Config) (a : InstanceAggregate) : Class :=
  if Drift.Qlt_bool (avg_cpu a) (idle_threshold cfg) then Idle
  else if Drift.Qlt_bool (high_utilization_threshold cfg) (p95_cpu a) then Overutilized
  else if Drift.Qlt_bool (p95_cpu a) (low_utilization_threshold cfg) then Candidate
  else Adequate.

Definition cap (t : InstanceType) : Q := inject_Z (Zpos (capacity t)).

(** Modelled from the spec: "current P95 x current_capacity /
    candidate_capacity". *)
Definition projected_utilization (p95 : Q) (cur cand : InstanceType) : Q :=
  p95 * cap cur / cap cand.

(** Modelled from the spec: a type fits when it is strictly smaller than
    the current one and the projected utilization is below the ceiling. *)
Definition fits (cfg : Config) (p95 : Q) (cur cand : InstanceType) : bool :=
  (capacity cand <? capacity cur)%positive
  && Drift.Qlt_bool (projected_utilization p95 cur cand) (safety_ceiling cfg).

(** Modelled from the spec: high when both coverage thresholds are met;
    the spec leaves the split between medium and low open, here: medium
    when one is met. *)
Definition grade_confidence (cfg : Config) (a : InstanceAggregate) : Confidence :=
  match (min_sample_count cfg <=? sample_count a)%nat,
        (min_window_hours cfg <=? window_hours a)%nat with
  | true, true => ConfHigh
  | false, false => ConfLow
  | _, _ => ConfMedium
  end.

Section Engine.
Variable cfg : Config.
Variable catalog : list InstanceType.
(** Which of several fitting types is recommended is a policy the spec
    does not fix. *)
Variable choose : list InstanceType -> option InstanceType.

Definition lookup_type (n : string) : option InstanceType :=
  List.find (λ t, String.eqb (type_name t) n) catalog.

(** Modelled from the spec: the recommendation for one instance
    (section 4.5). *)
Definition recommend (a : InstanceAggregate) : option RightsizingOpportunity :=
  cur ← lookup_type (instance_type a);
  match classify cfg a with
  | Candidate =>
      rec ← choose (List.filter (fits cfg (p95_cpu a) cur) catalog);
      Some {| opp_instance_id := instance_id a; opp_provider := provider a;
              current_type := cur; recommended_type := rec;
              utilization_basis := p95_cpu a;
              estimated_monthly_savings :=
                (hourly_price cur - hourly_price rec) * hours_per_month cfg;
              confidence := grade_confidence cfg a |}
  | _ => None
  end.

(** Modelled from the spec: [get_rightsizing_opportunities()], one
    analysis pass over the aggregates. *)
Definition get_rightsizing_opportunities (aggs : list InstanceAggregate)
  : list RightsizingOpportunity :=
  omap recommend aggs.
End Engine.

(** A selection policy: the cheapest fitting type, the first on ties. *)
Fixpoint cheapest (l : list InstanceType) : option InstanceType :=
  match l with
  | [] => None
  | t :: r =>
      match cheapest r with
      | Some u => if Drift.Qlt_bool (hourly_price u) (hourly_price t) then Some u else Some t
      | None => Some t
      end
  end.

End Rightsizing.

(** ** pages/Incidents.tsx: when the remediation actions are offered *)
Module IncidentsPage.

(** [selectedIncident.status !== 'resolved'] *)
Definition actions_offered (status : string) : bool :=
  negb (String.eqb status "resolved").

End IncidentsPage.

(** ** Concrete inputs used by the examples below *)
Module Samples.
Import JS.
Local Open Scope Z_scope.

Definition run_with (st : string) (v : option number) : Api.CheckRun :=
  {| Api.run_id := 1; Api.health_check_id := 1; Api.health_check_name := None;
     Api.status := st; Api.result_value := v; Api.result_details := None;
     Api.error_message := None; Api.started_at := "2024-01-01T00:00:00";
     Api.completed_at := None |}.

Definition check_with (ty : string) (r : option Api.CheckRun) : Api.HealthCheck :=
  {| Api.id := 1; Api.name := "Inference latency"; Api.description := None;
     Api.check_type := ty; Api.enabled := true; Api.interval_seconds := 60;
     Api.threshold_value := Some (of_Z 500); Api.remediation_strategy := None;
     Api.last_run := r |}.

(** A rendering of numbers that is enough to tell outputs apart. *)
Definition toFixed_stub (v : number) (digits : nat) : string :=
  match v with
  | S754_nan => "NaN"
  | S754_zero _ => "0"
  | S754_infinity _ => "Infinity"
  | S754_finite _ _ _ => "#"
  end.

(** A successful response whose body is not JSON text. *)
Definition no_content : Api.Response :=
  {| Api.ok := true; Api.response_status := 204; Api.statusText := "No Content";
     Api.json := None |}.

Definition not_found : Api.Response :=
  {| Api.ok := false; Api.response_status := 404; Api.statusText := "Not Found";
     Api.json := Some Api.JNull |}.

(** A store of one latency check (threshold 500 ms) whose source reports
    620 ms, and a target system that counts the strategies executed on it. *)
Definition core_cfg : Core.Config :=
  {| Core.MAX_REMEDIATION_RETRIES := 3; Core.MIN_DRIFT_SAMPLES := 2 |}.

Definition latency_check : Core.HealthCheck :=
  {| Core.hc_id := 7; Core.hc_name := "Inference latency";
     Core.check_type := Core.Latency; Core.enabled := true;
     Core.interval_seconds := 60; Core.threshold_value := 500 # 1;
     Core.remediation_strategy := Core.RestartService |}.

Definition slow_source : Core.MetricsSource :=
  {| Core.sample := λ _ _, inr (620 # 1);
     Core.sample_distribution := λ _, inl "no distribution" |}.

Definition failing_executors : Core.Executors nat :=
  {| Core.execute := λ _ n, ((false, "no effect"), S n);
     Core.preview := λ _ _, (true, "preview") |}.

Definition fixing_executors : Core.Executors nat :=
  {| Core.execute := λ _ n, ((true, "restarted"), S n);
     Core.preview := λ _ _, (true, "preview") |}.

Definition empty_store : Core.Store nat := Core.init_store [latency_check] 0%nat.

Definition open_store : Core.Store nat :=
  Core.step core_cfg failing_executors (Core.EvRun slow_source 7) empty_store.

Definition twice_failed_store : Core.Store nat :=
  Core.step core_cfg failing_executors (Core.EvRunAll slow_source) open_store.

Definition escalated_store : Core.Store nat :=
  Core.step core_cfg failing_executors (Core.EvRemediate 0 "clear_cache" false)
    (Core.step core_cfg failing_executors (Core.EvRemediate 0 "restart_service" false)
       (Core.step core_cfg failing_executors (Core.EvRemediate 0 "restart_service" false)
          open_store)).

Definition resolved_store : Core.Store nat :=
  Core.step core_cfg fixing_executors (Core.EvRemediate 0 "restart_service" false)
    (Core.step core_cfg fixing_executors (Core.EvRun slow_source 7) empty_store).

(** An instance at 18% P95 CPU on a 4-vCPU type, with a 2-vCPU type in the
    catalog and a ceiling of 80%. *)
Definition rs_cfg : Rightsizing.Config :=
  {| Rightsizing.idle_threshold := 10 # 100;
     Rightsizing.high_utilization_threshold := 85 # 100;
     Rightsizing.low_utilization_threshold := 40 # 100;
     Rightsizing.safety_ceiling := 80 # 100;
     Rightsizing.hours_per_month := 730 # 1;
     Rightsizing.min_sample_count := 100;
     Rightsizing.min_window_hours := 168 |}.

Definition m5_xlarge : Rightsizing.InstanceType :=
  {| Rightsizing.type_name := "m5.xlarge"; Rightsizing.capacity := 4;
     Rightsizing.hourly_price := 192 # 1000 |}.

Definition m5_large : Rightsizing.InstanceType :=
  {| Rightsizing.type_name := "m5.large"; Rightsizing.capacity := 2;
     Rightsizing.hourly_price := 96 # 1000 |}.

Definition catalog : list Rightsizing.InstanceType := [m5_xlarge; m5_large].

Definition aws_0012 : Rightsizing.InstanceAggregate :=
  {| Rightsizing.instance_id := "aws-0012"; Rightsizing.provider := "aws";
     Rightsizing.instance_type := "m5.xlarge";
     Rightsizing.avg_cpu := 12 # 100; Rightsizing.p95_cpu := 18 # 100;
     Rightsizing.p95_memory := 35 # 100;
     Rightsizing.sample_count := 500; Rightsizing.window_hours := 336 |}.

(** The same load on the smallest type of the catalog. *)
Definition aws_0013 : Rightsizing.InstanceAggregate :=
  {| Rightsizing.instance_id := "aws-0013"; Rightsizing.provider := "aws";
     Rightsizing.instance_type := "m5.large";
     Rightsizing.avg_cpu := 12 # 100; Rightsizing.p95_cpu := 18 # 100;
     Rightsizing.p95_memory := 35 # 100;
     Rightsizing.sample_count := 500; Rightsizing.window_hours := 336 |}.

End Samples.

(** ** pages/Dashboard.tsx: the state kept between polls *)
Module DashboardState.
Import JS Api.

Record LatencyEntry := { timestamp : string; value : number }.

(** [checks.find(c => c.check_type === 'latency')] *)
Definition latencyCheck (checks : list HealthCheck) : option HealthCheck :=
  List.find (λ c, String.eqb (check_type c) "latency") checks.

(** The entry [fetchData] records: none unless
    [latencyCheck?.last_run?.result_value] is truthy. *)
Definition newEntry (checks : list HealthCheck) : option LatencyEntry :=
  c ← latencyCheck checks;
  r ← last_run c;
  v ← result_value r;
  if truthy v then Some {| timestamp := started_at r; value := v |} else None.

(** [l.slice(-n)]: the last [n] elements, all of them when there are fewer. *)
Definition slice_last {A} (n : nat) (l : list A) : list A :=
  drop (length l - n) l.

(** [setLatencyHistory(prev => [...prev, newEntry].slice(-20))], done only
    when there is an entry to record. *)
Definition updateLatencyHistory (checks : list HealthCheck) (prev : list LatencyEntry)
  : list LatencyEntry :=
  match newEntry checks with
  | Some e => slice_last 20 (prev ++ [e])
  | None => prev
  end.

(** The history after a series of successful polls, oldest first. *)
Definition historyAfter (polls : list (list HealthCheck)) (prev : list LatencyEntry)
  : list LatencyEntry :=
  foldl (λ h checks, updateLatencyHistory checks h) prev polls.

(** [setRunningChecks(prev => new Set(prev).add(checkId))] and the
    [next.delete(checkId)] of the [finally] block. *)
Definition markRunning (checkId : Z) (prev : gset Z) : gset Z := {[checkId]} ∪ prev.
Definition unmarkRunning (checkId : Z) (prev : gset Z) : gset Z := prev ∖ {[checkId]}.

Inductive ToastType := success | error | info.

Record Toast := { message : string; type : ToastType }.

(** The part of [RunCheckResult] the handler reads. *)
Record RunCheckResult := { check_name : string; passed : bool }.

(** The state [handleRunCheck] touches; [refetches] counts the calls of
    [fetchData] it makes. *)
Record State := {
  runningChecks : gset Z;
  toast : option Toast;
  refetches : nat
}.

(** [handleRunCheck] up to its [await]. *)
Definition handleRunCheck_begin (checkId : Z) (st : State) : State :=
  {| runningChecks := markRunning checkId (runningChecks st);
     toast := toast st; refetches := refetches st |}.

(** [handleRunCheck] from the settling of [runHealthCheck(checkId)] on:
    the [try] or the [catch] branch, then the [finally] block. *)
Definition handleRunCheck_settle (checkId : Z)
    (outcome : Promise Failure RunCheckResult) (st : State) : State :=
  match outcome with
  | Resolved result =>
      {| runningChecks := unmarkRunning checkId (runningChecks st);
         toast := Some (if passed result
                        then {| message := check_name result +:+ " passed"; type := success |}
                        else {| message := check_name result +:+ " failed"; type := error |});
         refetches := S (refetches st) |}
  | Rejected _ =>
      {| runningChecks := unmarkRunning checkId (runningChecks st);
         toast := Some {| message := "Failed to run check"; type := error |};
         refetches := refetches st |}
  end.

Inductive RunEvent :=
| Begin (checkId : Z)
| Settle (checkId : Z) (outcome : Promise Failure RunCheckResult).

Definition event_id (e : RunEvent) : Z :=
  match e with Begin i => i | Settle i _ => i end.

Definition handle (st : State) (e : RunEvent) : State :=
  match e with
  | Begin i => handleRunCheck_begin i st
  | Settle i o => handleRunCheck_settle i o st
  end.

(** The event is a run that came back with a result. *)
Definition came_back (e : RunEvent) : bool :=
  match e with
  | Settle _ (Resolved _) => true
  | _ => false
  end.

End DashboardState.

(** ** components/HealthCheckCard.tsx: the status badge of a card *)
Module CardStatus.
Import JS Api.

Definition getStatusColor (check : HealthCheck) : string :=
  match last_run check with
  | None => "#64748B"
  | Some r =>
      if String.eqb (status r) "passed" then "#10B981"
      else if String.eqb (status r) "failed" then "#EF4444"
      else if String.eqb (status r) "running" then "#F59E0B"
      else "#64748B"
  end.

Definition getStatusLabel (check : HealthCheck) : string :=
  match last_run check with
  | None => "Not Run"
  | Some r =>
      if String.eqb (status r) "passed" then "Passed"
      else if String.eqb (status r) "failed" then "Failed"
      else if String.eqb (status r) "running" then "Running"
      else status r
  end.

(** The last run has a status other than ['passed'] and ['failed']. *)
Definition other_status (check : HealthCheck) : bool :=
  match last_run check with
  | None => false
  | Some r => negb (String.eqb (status r) "passed") && negb (String.eqb (status r) "failed")
  end.

Definition colored (color : string) (l : list HealthCheck) : nat :=
  length (filter (λ c, getStatusColor c = color) l).

End CardStatus.

(** ** components/PlotlyChart.tsx: the grouping of [IncidentTimelineChart] *)
Module TimelineChart.
Import JS.

Record TimelineIncident := { date : string; count : number; severity : string }.

(** "acc[inc.severity].push is not a function" *)
Inductive TypeError := NotAFunction.

Section Host.
(** The property names every object literal inherits from
    [Object.prototype] (['constructor'], ['toString'], ['__proto__'], ...):
    reading one of them from an empty object gives a truthy value that is
    no array. *)
Variable inherited : string -> bool.

(** The callback of the [reduce]: the group of the severity is created
    when reading it gives a falsy value, then the incident is pushed. *)
Definition group_step (acc : TypeError + gmap string (list TimelineIncident))
    (inc : TimelineIncident) : TypeError + gmap string (list TimelineIncident) :=
  match acc with
  | inl e => inl e
  | inr m =>
      match m !! severity inc with
      | Some items => inr (<[severity inc := items ++ [inc]]> m)
      | None =>
          if inherited (severity inc) then inl NotAFunction
          else inr (<[severity inc := [inc]]> m)
      end
  end.

Definition bySeverity (incidents : list TimelineIncident)
  : TypeError + gmap string (list TimelineIncident) :=
  foldl group_step (inr ∅) incidents.
End Host.

(** The incidents of one severity, in the order given. *)
Definition of_severity (sev : string) (incidents : list TimelineIncident)
  : list TimelineIncident :=
  filter (λ inc, severity inc = sev) incidents.

(** The names [Object.prototype] defines in a browser. *)
Definition object_prototype_names : list string :=
  ["constructor"; "hasOwnProperty"; "isPrototypeOf"; "propertyIsEnumerable";
   "toLocaleString"; "toString"; "valueOf"; "__proto__";
   "__defineGetter__"; "__defineSetter__"; "__lookupGetter__"; "__lookupSetter__"].

Definition in_object_prototype (name : string) : bool :=
  bool_decide (name ∈ object_prototype_names).

End TimelineChart.


(** ** api.ts: the request of a call and its outcome *)
Module ApiRequests.
Import JS Api.

(** What [fetchAPI] makes of the response to its request. *)
Definition outcome_of (settled : Promise string Response) : Promise Failure JSON :=
  match settled with
  | Rejected reason => Rejected (FetchRejected reason)
  | Resolved response =>
      if ok response
      then match json response with
           | Some v => Resolved v
           | None => Rejected BodySyntaxError
           end
      else Rejected (ApiError (error_message_of response))
  end.

End ApiRequests.

(** ** pages/Dashboard.tsx: [fetchData], run once on mount and then every
    ten seconds.  The three responses are taken at the types api.ts
    declares for them. *)
Module DashboardPolling.
Import JS Api.

(** What [Promise.all] of three settled promises can settle to: the three
    values when all resolved, else the reason of the one that rejected
    first, which is a matter of timing. *)
Inductive PromiseAll {A B C : Type} (a : Promise Failure A) (b : Promise Failure B)
    (c : Promise Failure C) : Promise Failure (A * B * C) -> Prop :=
| all_resolved x y z :
    a = Resolved x -> b = Resolved y -> c = Resolved z ->
    PromiseAll a b c (Resolved (x, y, z))
| all_rejected_first e : a = Rejected e -> PromiseAll a b c (Rejected e)
| all_rejected_second e : b = Rejected e -> PromiseAll a b c (Rejected e)
| all_rejected_third e : c = Rejected e -> PromiseAll a b c (Rejected e).

Definition is_rejected {E A} (p : Promise E A) : bool :=
  match p with
  | Rejected _ => true
  | Resolved _ => false
  end.

Section Page.
(** The incidents and their summary are only stored and shown. *)
Variables Incident Summary : Type.
(** The message of the [SyntaxError] of [response.json()]. *)
Variable syntax_error_message : string.

Record State := {
  healthChecks : list HealthCheck;
  incidents : list Incident;
  incidentSummary : option Summary;
  loading : bool;
  error : option string;
  latencyHistory : list DashboardState.LatencyEntry
}.

(** The [useState] defaults. *)
Definition initial : State :=
  {| healthChecks := []; incidents := []; incidentSummary := None;
     loading := true; error := None; latencyHistory := [] |}.

(** [err.message]; every rejection of the client is an [Error]. *)
Definition message_of (err : Failure) : string :=
  match err with
  | ApiError message => message
  | FetchRejected reason => reason
  | BodySyntaxError => syntax_error_message
  end.

Definition Polled : Type := Promise Failure (list HealthCheck * list Incident * Summary).

(** [fetchData] from the settling of its [Promise.all] on. *)
Definition fetchData (all : Polled) (st : State) : State :=
  match all with
  | Resolved (checks, incs, summary) =>
      {| healthChecks := checks;
         incidents := take 5 incs;
         incidentSummary := Some summary;
         loading := false;
         error := None;
         latencyHistory := DashboardState.updateLatencyHistory checks (latencyHistory st) |}
  | Rejected err =>
      {| healthChecks := healthChecks st;
         incidents := incidents st;
         incidentSummary := incidentSummary st;
         loading := false;
         error := Some ("Failed to connect to backend: " +:+ message_of err);
         latencyHistory := latencyHistory st |}
  end.

(** The page after a series of polls, oldest first. *)
Definition after (polls : list Polled) : State :=
  foldl (λ st all, fetchData all st) initial polls.

(** The polls that delivered data. *)
Definition delivered (polls : list Polled)
  : list (list HealthCheck * list Incident * Summary) :=
  omap (λ all, match all with Resolved x => Some x | Rejected _ => None end) polls.

End Page.

Arguments healthChecks {_ _} _.
Arguments incidents {_ _} _.
Arguments incidentSummary {_ _} _.
Arguments loading {_ _} _.
Arguments error {_ _} _.
Arguments latencyHistory {_ _} _.
Arguments delivered {_ _} _.

End DashboardPolling.

(** ** The Incidents page: [handleRemediate] and [handleResolve] *)
Module IncidentActions.
Import JS Api.

(** ToBoolean of a value parsed from JSON. *)
Definition to_boolean (v : JSON) : bool :=
  match v with
  | JNull => false
  | JBool b => b
  | JNumber n => truthy n
  | JString s => negb (String.eqb s "")
  | JArray _ | JObject _ => true
  end.

(** The member an object parsed from JSON has under a name: of members
    with the same name [JSON.parse] keeps the last. *)
Definition last_member (key : string) (members : list (string * JSON)) : option JSON :=
  snd <$> List.find (λ kv, String.eqb kv.1 key) (reverse members).

(** "Cannot read properties of null" *)
Inductive TypeError := CannotReadProperty.

(** [result.success]: reading from [null] throws; a boolean, a number, a
    string or an array has no such property, which gives [undefined]. *)
Definition result_success (result : JSON) : TypeError + option JSON :=
  match result with
  | JNull => inl CannotReadProperty
  | JObject members => inr (last_member "success" members)
  | _ => inr None
  end.

Section Page.
Variable fetch : string -> RequestInit -> Promise string Response.
Variable stringify : JSON -> string.
(** The selected incident is only stored and shown. *)
Variable Incident : Type.

(** The state the two handlers touch; [refetches] counts their calls of
    [fetchData].  The timer that hides the toast after three seconds is
    left out. *)
Record State := {
  toast : option string;
  selectedIncident : option Incident;
  refetches : nat
}.

Definition caught (message : string) (st : State) : State :=
  {| toast := Some message;
     selectedIncident := selectedIncident st;
     refetches := refetches st |}.

Definition done_with (message : string) (st : State) : State :=
  {| toast := Some message;
     selectedIncident := None;
     refetches := S (refetches st) |}.

Definition handleRemediate (incidentId : Z) (strategy : string) (dryRun : option bool)
    (st : State) : State :=
  match remediate fetch stringify incidentId strategy dryRun with
  | Resolved result =>
      match result_success result with
      | inr success =>
          done_with (if default false (to_boolean <$> success)
                     then "Remediation successful"
                     else "Remediation failed") st
      | inl _ => caught "Error executing remediation" st
      end
  | Rejected _ => caught "Error executing remediation" st
  end.

Definition handleResolve (incidentId : Z) (st : State) : State :=
  match resolveIncident fetch stringify incidentId (Some "Manually resolved") with
  | Resolved _ => done_with "Incident resolved" st
  | Rejected _ => caught "Failed to resolve incident" st
  end.

(** The request [remediate] sends. *)
Definition remediate_init (incidentId : Z) (strategy : string) (dryRun : option bool)
  : RequestInit :=
  {| method := Some "POST";
     headers := Some {[ "Content-Type" := "application/json" ]};
     body := Some (stringify
                     (JObject [("incident_id", JNumber (of_Z incidentId));
                               ("strategy", JString strategy);
                               ("dry_run", JBool (default false dryRun))])) |}.

End Page.

Arguments toast {_} _.
Arguments selectedIncident {_} _.
Arguments refetches {_} _.

End IncidentActions.

(** ** pages/Dashboard.tsx: the data of the pie chart of the checks *)
Module DashboardCharts.
Import Stdlib.Strings.Ascii JS Api.

(** [s.split(' ')].  A string is the sequence of the bytes of its UTF-8
    encoding, in which the byte of a space occurs for a space only. *)
Fixpoint split_space (s : string) : list string :=
  match s with
  | EmptyString => [EmptyString]
  | String c r =>
      if Ascii.eqb c " "%char then EmptyString :: split_space r
      else match split_space r with
           | w :: ws => String c w :: ws
           | [] => [String c EmptyString]
           end
  end.

(** [c.name.split(' ').slice(0, 2).join(' ')] *)
Definition label (name : string) : string :=
  String.concat " " (take 2 (split_space name)).

(** [c.last_run?.result_value || 0] *)
Definition chart_value (c : HealthCheck) : number :=
  match HealthCheckCard.last_result_value c with
  | Some v => if truthy v then v else of_Z 0
  | None => of_Z 0
  end.

Definition labels (healthChecks : list HealthCheck) : list string :=
  (λ c, label (name c)) <$> healthChecks.

Definition values (healthChecks : list HealthCheck) : list number :=
  chart_value <$> healthChecks.

(** The number of spaces of a string. *)
Fixpoint spaces (s : string) : nat :=
  match s with
  | EmptyString => 0
  | String c r => (if Ascii.eqb c " "%char then 1 else 0) + spaces r
  end.

End DashboardCharts.

(* ===================================================================== *)
(** * Part II: properties *)
(* ===================================================================== *)

(** ** The dashboard client *)
Module ClientFacts.
Import JS Api.

Lemma append_assoc (a b c : string) : (a +:+ b) +:+ c = a +:+ b +:+ c.
Proof.
  induction a as [|x a IH]; [done|].
  change (String x ((a +:+ b) +:+ c) = String x (a +:+ b +:+ c)). by rewrite IH.
Qed.

Lemma append_empty_r (a : string) : a +:+ "" = a.
Proof.
  induction a as [|x a IH]; [done|].
  change (String x (a +:+ "") = String x a). by rewrite IH.
Qed.

Section Client.
Variable fetch : string -> RequestInit -> Promise string Response.
Local Abbreviation Settled := (Api.Settled fetch).

Lemma fetchAPI_unfold endpoint options :
  fetchAPI fetch endpoint options =
  match fetch (API_BASE +:+ endpoint) (request_init options) with
  | Rejected reason => Rejected (FetchRejected reason)
  | Resolved response =>
      if ok response then
        match json response with
        | Some v => Resolved v
        | None => Rejected BodySyntaxError
        end
      else Rejected (ApiError (error_message_of response))
  end.
Proof.
  unfold fetchAPI. destruct (fetch _ _) as [response|reason]; [|done].
  by destruct (ok response).
Qed.

Lemma fetchAPI_settled endpoint options :
  Settled endpoint options (fetchAPI fetch endpoint options).
Proof.
  rewrite fetchAPI_unfold.
  destruct (fetch _ _) as [response|reason] eqn:Hf.
  - destruct (ok response) eqn:Hok.
    + destruct (json response) as [v|] eqn:Hj; econstructor; eauto.
    + econstructor; eauto.
  - by constructor.
Qed.

Lemma error_message_contains response :
  contains (show_Z (response_status response)) (error_message_of response)
  ∧ contains (statusText response) (error_message_of response).
Proof.
  unfold error_message_of, contains. split.
  - exists "API Error: ", (" " +:+ statusText response). done.
  - exists ("API Error: " +:+ show_Z (response_status response) +:+ " "), "".
    by rewrite append_empty_r, !append_assoc.
Qed.

(** C10 (as amended).  When [fetch] resolves with a response, [fetchAPI]
    throws its own Error exactly when [response.ok] is false, and that
    Error's message contains the status code and the status text; when
    [response.ok] is true it settles as [response.json()] does: with the
    parsed body, or with the SyntaxError of a body that is not JSON.  When
    [fetch] itself rejects, the rejection is passed on.  Every exported
    function of the module is one call of [fetchAPI] and so ends in one of
    these four ways. *)
Theorem fetchAPI_outcomes (endpoint : string) (options : option RequestInit) :
  (∀ response,
      fetch (API_BASE +:+ endpoint) (request_init options) = Resolved response ->
      ((∃ msg, fetchAPI fetch endpoint options = Rejected (ApiError msg))
       ↔ ok response = false)
      ∧ (ok response = false ->
         fetchAPI fetch endpoint options = Rejected (ApiError (error_message_of response))
         ∧ contains (show_Z (response_status response)) (error_message_of response)
         ∧ contains (statusText response) (error_message_of response))
      ∧ (ok response = true ->
         fetchAPI fetch endpoint options =
         match json response with
         | Some v => Resolved v
         | None => Rejected BodySyntaxError
         end))
  ∧ (∀ reason,
      fetch (API_BASE +:+ endpoint) (request_init options) = Rejected reason ->
      fetchAPI fetch endpoint options = Rejected (FetchRejected reason))
  ∧ (∀ stringify form_urlencode (c : ApiCall),
      ∃ endpoint' options',
        invoke fetch stringify form_urlencode c = fetchAPI fetch endpoint' options'
        ∧ Settled endpoint' options' (invoke fetch stringify form_urlencode c)).
Proof.
  split; [|split].
  - intros response Hf. rewrite fetchAPI_unfold, Hf.
    destruct (ok response) eqn:Hok; (split; [|split]); try done.
    + split; [|intros; discriminate]. intros [msg Hmsg]. by destruct (json response).
    + split; [done|]. eauto.
    + intros _. split; [done|]. apply error_message_contains.
  - intros reason Hf. by rewrite fetchAPI_unfold, Hf.
  - intros stringify form_urlencode c.
    destruct c; simpl; eexists _, _; (split; [reflexivity|]); apply fetchAPI_settled.
Qed.

End Client.

(** C10, counterexample: a call whose response has [ok = true] and a body
    that is not JSON is settled with the SyntaxError of [response.json()]:
    it returns no parsed JSON and does not throw the "API Error"; nor does
    a call whose [fetch] rejects. *)
Lemma clearFailures_ok_but_not_json :
  ok Samples.no_content = true
  ∧ clearFailures (λ _ _, Resolved Samples.no_content) (λ _, "") = Rejected BodySyntaxError
  ∧ getHealthChecks (λ _ _, Rejected "Failed to fetch")
    = Rejected (FetchRejected "Failed to fetch").
Proof. repeat split. Qed.

Example fetchAPI_not_found :
  getHealthChecks (λ _ _, Resolved Samples.not_found)
  = Rejected (ApiError "API Error: 404 Not Found").
Proof. reflexivity. Qed.

Example remediate_request :
  remediate
    (λ url init, Rejected (url +:+ " " +:+ default "" (method init) +:+ " "
                           +:+ default "" (body init)))
    (λ j, match j with
          | JObject [("incident_id", JNumber _); ("strategy", JString st);
                     ("dry_run", JBool d)] =>
              st +:+ (if d then " dry" else " real")
          | _ => "?"
          end)
    3 "clear_cache" None
  = Rejected (FetchRejected "/api/remediate POST clear_cache real").
Proof. reflexivity. Qed.

(** The Incidents page offers its remediation and resolve buttons for
    every status but ['resolved'], so also for an escalated Incident. *)
Example actions_offered_unless_resolved :
  IncidentsPage.actions_offered "escalated" = true
  ∧ IncidentsPage.actions_offered "open" = true
  ∧ IncidentsPage.actions_offered "resolved" = false.
Proof. repeat split. Qed.

Example getIncidents_url :
  getIncidents (λ url _, Rejected url) (λ v, v) (Some "open") (Some "")
  = Rejected (FetchRejected "/api/incidents?status=open").
Proof. reflexivity. Qed.

End ClientFacts.

(** ** The status counters of the dashboard *)
Module DashboardFacts.
Import Api Dashboard.

Lemma foldl_count_check (l : list HealthCheck) (acc : StatusCounts) :
  let c := foldl count_check acc l in
  passed c = passed acc + in_bucket Passing l
  ∧ failed c = failed acc + in_bucket Failing l
  ∧ pending c = pending acc + in_bucket Pending l.
Proof.
  revert acc. induction l as [|check l IH]; intros acc; simpl.
  - unfold in_bucket. simpl. lia.
  - destruct (IH (count_check acc check)) as (Hp & Hf & Hn).
    rewrite Hp, Hf, Hn. unfold in_bucket. rewrite !filter_cons.
    unfold count_check, bucket.
    destruct (last_run check) as [r|]; [destruct (String.eqb (status r) "passed")|];
      repeat case_decide; try done; simpl; lia.
Qed.

Lemma buckets_partition (l : list HealthCheck) :
  in_bucket Passing l + in_bucket Failing l + in_bucket Pending l = length l.
Proof.
  unfold in_bucket. induction l as [|check l IH]; [done|].
  rewrite !filter_cons. destruct (bucket check); repeat case_decide; try done; simpl; lia.
Qed.

(** C9.  [getStatusCounts] puts every check in exactly one bucket: pending
    when it has no last run, passed when the last run's status is
    ['passed'], failed otherwise; the three counters add up to the number
    of checks, and a last run with status ['error'] or ['running'] counts
    as failed. *)
Theorem getStatusCounts_buckets (healthChecks : list HealthCheck) :
  let counts := getStatusCounts healthChecks in
  passed counts = in_bucket Passing healthChecks
  ∧ failed counts = in_bucket Failing healthChecks
  ∧ pending counts = in_bucket Pending healthChecks
  ∧ passed counts + failed counts + pending counts = length healthChecks
  ∧ ∀ check r,
      last_run check = Some r -> status r = "error" ∨ status r = "running" ->
      bucket check = Failing
      ∧ getStatusCounts [check] = {| passed := 0; failed := 1; pending := 0 |}.
Proof.
  destruct (foldl_count_check healthChecks {| passed := 0; failed := 0; pending := 0 |})
    as (Hp & Hf & Hn).
  simpl in *. unfold getStatusCounts. rewrite Hp, Hf, Hn.
  split; [done|]. split; [done|]. split; [done|]. split; [apply buckets_partition|].
  intros check r Hr Hst. split.
  - unfold bucket. rewrite Hr. by destruct Hst as [-> | ->].
  - unfold count_check. simpl. rewrite Hr. by destruct Hst as [-> | ->].
Qed.

Example getStatusCounts_sample :
  getStatusCounts
    [Samples.check_with "latency" None;
     Samples.check_with "latency" (Some (Samples.run_with "passed" None));
     Samples.check_with "drift" (Some (Samples.run_with "error" None));
     Samples.check_with "drift" (Some (Samples.run_with "running" None));
     Samples.check_with "resource" (Some (Samples.run_with "failed" None))]
  = {| passed := 1; failed := 3; pending := 1 |}.
Proof. reflexivity. Qed.

End DashboardFacts.

(** ** The value shown on a health-check card *)
Module CardFacts.
Import JS Api HealthCheckCard.

Lemma truthy_false_iff (v : number) :
  truthy v = false ↔ is_zero v = true ∨ v = NaN.
Proof. destruct v; simpl; intuition discriminate. Qed.

Section Card.
Variable toFixed : number -> nat -> string.

(** C8 (as amended).  For a check with a last run: when the run's
    [result_value] is null, a zero of either sign or NaN, [formatValue]
    returns ['N/A']; for every other value it returns the value formatted
    by check type: one decimal and ['ms'] for latency, the value times 100
    with one decimal and ['%'] for correctness, ['KS: '] and three decimals
    for drift, one decimal and ['%'] for resource, two decimals for any
    other type. *)
Theorem formatValue_cases (check : HealthCheck) (r : CheckRun) :
  last_run check = Some r ->
  (result_value r = None -> formatValue toFixed check = "N/A")
  ∧ (∀ v, result_value r = Some v -> is_zero v = true ∨ v = NaN ->
          formatValue toFixed check = "N/A")
  ∧ (∀ v, result_value r = Some v -> is_zero v = false -> v ≠ NaN ->
       (check_type check = "latency" ->
        formatValue toFixed check = toFixed v 1 +:+ "ms")
       ∧ (check_type check = "correctness" ->
          formatValue toFixed check = toFixed (mul v (of_Z 100)) 1 +:+ "%")
       ∧ (check_type check = "drift" ->
          formatValue toFixed check = "KS: " +:+ toFixed v 3)
       ∧ (check_type check = "resource" ->
          formatValue toFixed check = toFixed v 1 +:+ "%")
       ∧ (check_type check ∉ ["latency"; "correctness"; "drift"; "resource"] ->
          formatValue toFixed check = toFixed v 2)).
Proof.
  intros Hr. unfold formatValue, last_result_value. rewrite Hr. simpl.
  split; [by intros ->|]. split.
  - intros v -> Hv. apply truthy_false_iff in Hv. by rewrite Hv.
  - intros v -> Hz Hn.
    assert (truthy v = true) as ->.
    { destruct (truthy v) eqn:Ht; [done|].
      apply truthy_false_iff in Ht as [Ht | Ht]; congruence. }
    simpl. repeat split; try (by intros ->).
    intros Hty.
    rewrite !(proj2 (String.eqb_neq _ _)); [done|..]; intros Heq; apply Hty;
      rewrite Heq; set_solver.
Qed.

End Card.

(** The hypothesis of [formatValue_cases] holds of a latency check whose
    last run measured 0 ms, which is displayed as ['N/A']. *)
Lemma formatValue_cases_witness :
  formatValue Samples.toFixed_stub
    (Samples.check_with "latency" (Some (Samples.run_with "passed" (Some (of_Z 0)))))
  = "N/A".
Proof.
  exact (proj1 (proj2 (formatValue_cases Samples.toFixed_stub
                         (Samples.check_with "latency"
                            (Some (Samples.run_with "passed" (Some (of_Z 0)))))
                         (Samples.run_with "passed" (Some (of_Z 0))) eq_refl))
               (of_Z 0) eq_refl (or_introl eq_refl)).
Defined.

(** C8, counterexample: NaN is a [result_value] that is neither null nor
    zero, and the card shows ['N/A'] for it, not the formatted value. *)
Lemma formatValue_NaN_is_NA :
  last_result_value
    (Samples.check_with "latency" (Some (Samples.run_with "passed" (Some NaN))))
  = Some NaN
  ∧ is_zero NaN = false
  ∧ formatValue Samples.toFixed_stub
      (Samples.check_with "latency" (Some (Samples.run_with "passed" (Some NaN))))
    = "N/A"
  ∧ Samples.toFixed_stub NaN 1 +:+ "ms" = "NaNms".
Proof. repeat split. Qed.

Example formatValue_never_run :
  formatValue Samples.toFixed_stub (Samples.check_with "latency" None) = "N/A".
Proof. reflexivity. Qed.

Example formatValue_correctness :
  formatValue (λ v _, if SFeqb v (of_Z 300) then "300.0" else "?")
    (Samples.check_with "correctness" (Some (Samples.run_with "passed" (Some (of_Z 3)))))
  = "300.0%".
Proof. reflexivity. Qed.

End CardFacts.

(** ** The drift detector *)
Module DriftFacts.
Import Drift.
Local Open Scope Q_scope.

Lemma Qlt_bool_iff (a b : Q) : Qlt_bool a b = true ↔ a < b.
Proof.
  unfold Qlt_bool. rewrite negb_true_iff, <- not_true_iff_false, Qle_bool_iff.
  split; [apply Qnot_le_lt | apply Qlt_not_le].
Qed.

Section Sup.
Variable f : Q -> Q.
Local Abbreviation sup_over := (Drift.sup_over f).

Lemma sup_over_nonneg l : 0 <= sup_over l.
Proof.
  induction l as [|x l IH]; simpl; [apply Qle_refl|].
  eapply Qle_trans; [exact IH | apply Q.le_max_r].
Qed.

Lemma sup_over_upper l x : x ∈ l -> f x <= sup_over l.
Proof.
  induction l as [|y l IH]; intros Hx; [by apply elem_of_nil in Hx|].
  apply elem_of_cons in Hx as [-> | Hx]; simpl.
  - apply Q.le_max_l.
  - eapply Qle_trans; [exact (IH Hx) | apply Q.le_max_r].
Qed.

Lemma sup_over_least l m : 0 <= m -> (∀ x, x ∈ l -> f x <= m) -> sup_over l <= m.
Proof.
  intros Hm. induction l as [|y l IH]; intros Hl; simpl; [done|].
  apply Q.max_lub.
  - apply Hl. by left.
  - apply IH. intros x Hx. apply Hl. by right.
Qed.

Lemma sup_over_attained l :
  l ≠ [] -> (∀ x, 0 <= f x) -> ∃ x, x ∈ l ∧ sup_over l == f x.
Proof.
  intros Hne Hpos. induction l as [|y l IH]; [done|]. simpl.
  destruct (Q.max_spec (f y) (sup_over l)) as [[Hlt Heq] | [Hle Heq]].
  - destruct l as [|z l].
    + simpl in Hlt. exfalso. apply (Qlt_not_le _ _ Hlt), Hpos.
    + destruct IH as (x & Hx & Hsup); [done|].
      exists x. split; [by right|]. by rewrite Heq.
  - exists y. split; [by left | exact Heq].
Qed.
End Sup.

Lemma ks_statistic_sup baseline current :
  ks_statistic baseline current
  = sup_over (gap baseline current) (evaluation_points baseline current).
Proof. reflexivity. Qed.

Lemma gap_nonneg baseline current x : 0 <= gap baseline current x.
Proof. apply Qabs_nonneg. Qed.

Lemma gap_self s x : gap s s x == 0.
Proof.
  unfold gap. assert (ecdf s x - ecdf s x == 0) as -> by ring. reflexivity.
Qed.

Lemma ks_statistic_self s : ks_statistic s s == 0.
Proof.
  rewrite ks_statistic_sup. apply Qle_antisym; [|apply sup_over_nonneg].
  apply sup_over_least; [apply Qle_refl|].
  intros x _. rewrite gap_self. apply Qle_refl.
Qed.

Lemma distinct_nonempty l : l ≠ [] -> distinct l ≠ [].
Proof.
  induction l as [|x l IH]; [done|]. intros _. simpl.
  destruct (existsb (Qeq_bool x) l) eqn:Hex; [|done].
  apply IH. intros ->. discriminate.
Qed.

(** *** The largest gap over the sample points is the largest gap over
    all points: between two sample points neither distribution function
    moves. *)

Lemma count_le_ext (s : list Q) (x p : Q) :
  (∀ e, e ∈ s -> Qle_bool e x = Qle_bool e p) -> count_le s x = count_le s p.
Proof.
  unfold count_le. induction s as [|a s IH]; intros Hext; [done|]. simpl.
  rewrite (Hext a) by left.
  destruct (Qle_bool a p); simpl; [f_equal|]; apply IH;
    intros e He; apply Hext; by right.
Qed.

Lemma gap_ext baseline current (x p : Q) :
  (∀ e, e ∈ baseline ++ current -> Qle_bool e x = Qle_bool e p) ->
  gap baseline current x = gap baseline current p.
Proof.
  intros Hext. unfold gap, ecdf.
  rewrite (count_le_ext baseline x p), (count_le_ext current x p); [done|..];
    intros e He; apply Hext, elem_of_app; auto.
Qed.

Lemma largest_exists (l : list Q) :
  l ≠ [] -> ∃ p, p ∈ l ∧ ∀ e, e ∈ l -> e <= p.
Proof.
  induction l as [|x l IH]; [done|]. intros _.
  destruct l as [|y l].
  - exists x. split; [left|]. intros e He.
    apply list_elem_of_singleton in He as ->. apply Qle_refl.
  - destruct IH as (p & Hp & Hmax); [done|].
    destruct (Qlt_le_dec p x) as [Hlt | Hle].
    + exists x. split; [left|]. intros e He.
      apply elem_of_cons in He as [-> | He]; [apply Qle_refl|].
      eapply Qle_trans; [apply (Hmax e He) | by apply Qlt_le_weak].
    + exists p. split; [by right|]. intros e He.
      apply elem_of_cons in He as [-> | He]; [done | by apply Hmax].
Qed.

Lemma distinct_represents (l : list Q) (x : Q) :
  x ∈ l -> ∃ y, y ∈ distinct l ∧ x == y.
Proof.
  revert x. induction l as [|a l IH]; intros x Hx; [by apply elem_of_nil in Hx|].
  simpl. destruct (existsb (Qeq_bool a) l) eqn:Hex.
  - apply elem_of_cons in Hx as [-> | Hx]; [|by apply IH].
    apply existsb_exists in Hex as (z & Hz & Haz).
    apply list_elem_of_In in Hz. apply Qeq_bool_iff in Haz.
    destruct (IH z Hz) as (y & Hy & Hzy). exists y. split; [done|]. by rewrite Haz.
  - apply elem_of_cons in Hx as [-> | Hx].
    + exists a. split; [left | reflexivity].
    + destruct (IH x Hx) as (y & Hy & Hxy). exists y. split; [by right | done].
Qed.

Lemma ecdf_zero (s : list Q) (x : Q) : count_le s x = 0%nat -> ecdf s x == 0.
Proof. unfold ecdf. intros ->. simpl. unfold Qdiv. ring. Qed.

Lemma gap_below_ks baseline current (x : Q) :
  gap baseline current x <= ks_statistic baseline current.
Proof.
  rewrite ks_statistic_sup.
  destruct (List.filter (λ e, Qle_bool e x) (baseline ++ current)) as [|e0 below] eqn:Hbelow.
  - rewrite List.filter_app in Hbelow. apply app_eq_nil in Hbelow as [Hb Hc].
    unfold gap. rewrite (ecdf_zero baseline x), (ecdf_zero current x);
      [|unfold count_le; by rewrite ?Hb, ?Hc..].
    apply sup_over_nonneg.
  - destruct (largest_exists (e0 :: below)) as (p & Hp & Hmax); [done|].
    rewrite <- Hbelow in Hp, Hmax.
    apply list_elem_of_In, List.filter_In in Hp as [Hp Hpx].
    apply Qle_bool_iff in Hpx.
    assert (∀ e, e ∈ baseline ++ current -> Qle_bool e x = Qle_bool e p) as Hext.
    { intros e He. destruct (Qle_bool e x) eqn:Hex.
      - symmetry. apply Qle_bool_iff, Hmax, list_elem_of_In, List.filter_In.
        split; [by apply list_elem_of_In | done].
      - symmetry. apply not_true_iff_false. intros Hep.
        apply not_true_iff_false in Hex. apply Hex, Qle_bool_iff.
        apply Qle_bool_iff in Hep. by eapply Qle_trans. }
    rewrite (gap_ext baseline current x p Hext).
    destruct (distinct_represents (baseline ++ current) p) as (q & Hq & Hpq);
      [by apply list_elem_of_In|].
    rewrite (gap_ext baseline current p q).
    + by apply sup_over_upper.
    + intros e _. by rewrite Hpq.
Qed.




Example detect_drift_shifted :
  detect_drift {| threshold := 1 # 2; min_samples := 2 |} [1; 2; 3] [2; 3; 4; 5]
  = inr {| D := 6 # 12; passed := false |}.
Proof. reflexivity. Qed.

End DriftFacts.

(** ** The incident state machine *)
Module CoreFacts.
Import Core.

Section Facts.
Context {Sys : Type}.
Variable cfg : Config.
Variable executors : Executors Sys.

Local Abbreviation M := (M (Sys:=Sys)).
Local Abbreviation exhausted := (Core.exhausted cfg).
Local Abbreviation esc_ok := (Core.esc_ok cfg).
Local Abbreviation table_step := (Core.table_step cfg).
Local Abbreviation table_steps := (Core.table_steps cfg).
Local Abbreviation returns := (Core.returns cfg).
Local Abbreviation dry_record := (Core.dry_record executors).
Local Abbreviation after_dry := (Core.after_dry executors).
Local Abbreviation real_record := (Core.real_record executors).
Local Abbreviation after_real := (Core.after_real cfg executors).
Local Abbreviation after := (Core.after cfg executors).

(** *** Invariants of the Incident table *)

Lemma alter_origin (l : list Incident) k f i j a :
  l !! k = Some i -> non_terminal i -> trigger (f i) = trigger i ->
  alter f k l !! j = Some a -> non_terminal a ->
  ∃ a0, l !! j = Some a0 ∧ non_terminal a0
        ∧ health_check (trigger a0) = health_check (trigger a).
Proof.
  intros Hk Hnt Htr Ha Hna. rewrite list_lookup_alter in Ha.
  destruct (decide (k = j)) as [<- | Hne]; [|eauto].
  rewrite Hk in Ha. simplify_eq/=. exists i. by rewrite Htr.
Qed.

Lemma dedup_step l l' : table_step l l' -> dedup l -> dedup l'.
Proof.
  intros [l0 k f i Hk Hnt Htr _ | l0 i Hnone Hst _] Hd j1 j2 a b Ha Hb Hna Hnb Hc.
  - destruct (alter_origin _ _ _ _ _ _ Hk Hnt Htr Ha Hna) as (a0 & ? & ? & Ea).
    destruct (alter_origin _ _ _ _ _ _ Hk Hnt Htr Hb Hnb) as (b0 & ? & ? & Eb).
    eapply Hd; eauto. congruence.
  - apply lookup_snoc_Some in Ha as [[Hj1 Ha] | [-> <-]];
      apply lookup_snoc_Some in Hb as [[Hj2 Hb] | [-> <-]].
    + eapply Hd; eauto.
    + exfalso. rewrite Forall_lookup in Hnone. by eapply Hnone.
    + exfalso. rewrite Forall_lookup in Hnone. by eapply Hnone.
    + done.
Qed.

Lemma esc_ok_step l l' : table_step l l' -> Forall esc_ok l -> Forall esc_ok l'.
Proof.
  intros [l0 k f i Hk Hnt _ Hesc | l0 i _ Hst Hat] Hall.
  - apply Forall_alter; [done|]. intros x Hx. by simplify_eq.
  - apply Forall_app. split; [done|]. constructor; [|done].
    intros [Hpos _]. unfold retry_count in Hpos. rewrite Hat in Hpos. simpl in Hpos. lia.
Qed.

(** A terminal Incident is never touched again. *)
Lemma terminal_step l l' k i :
  table_step l l' -> l !! k = Some i -> terminal (inc_status i) = true ->
  l' !! k = Some i.
Proof.
  intros [l0 k0 f i0 Hk Hnt _ _ | l0 i0 _ _ _] Hi Ht.
  - rewrite list_lookup_alter. case_decide; [|done]. subst.
    unfold non_terminal in Hnt. congruence.
  - rewrite lookup_app_l; [done|]. by eapply lookup_lt_Some.
Qed.

Lemma dedup_steps l l' : table_steps l l' -> dedup l -> dedup l'.
Proof. induction 1; eauto using dedup_step. Qed.

Lemma esc_ok_steps l l' : table_steps l l' -> Forall esc_ok l -> Forall esc_ok l'.
Proof. induction 1; eauto using esc_ok_step. Qed.

Lemma terminal_steps l l' k i :
  table_steps l l' -> l !! k = Some i -> terminal (inc_status i) = true ->
  l' !! k = Some i.
Proof. induction 1; eauto using terminal_step. Qed.

Lemma esc_ok_same (i i' : Incident) :
  inc_status i' = inc_status i -> attempts i' = attempts i -> esc_ok i -> esc_ok i'.
Proof.
  unfold esc_ok, exhausted, retry_count. intros -> ->. done.
Qed.

Lemma on_failing_run_spec name t r (s : Store Sys) :
  ∃ s', returns (on_failing_run name t r) s tt s'
        ∧ check_runs s' = check_runs s ∧ target s' = target s.
Proof.
  unfold returns, on_failing_run, bind, get. simpl.
  destruct (list_find _ _) as [[k i]|] eqn:Hfind; simpl.
  - apply list_find_Some in Hfind as (Hk & [Hnt Hc] & _).
    eexists. split; [split; [reflexivity|split; [done|]]|done]. simpl.
    apply rtc_once. eapply step_update; eauto.
  - apply list_find_None in Hfind.
    eexists. split; [split; [reflexivity|split; [done|]]|done]. simpl.
    apply rtc_once. by apply step_open.
Qed.

Lemma run_check_spec m hc (s : Store Sys) :
  ∃ r s', returns (run_check cfg m hc) s r s'
          ∧ check_runs s' = check_runs s ++ [r] ∧ target s' = target s
          ∧ health_check r = hc_id hc
          ∧ status r = out_status (evaluate cfg m hc)
          ∧ error_message r = out_error (evaluate cfg m hc)
          ∧ started_at r ≤ completed_at r.
Proof.
  unfold returns, run_check, bind, tick, get, append_run. simpl.
  destruct (failing (out_status (evaluate cfg m hc))) eqn:Hfail.
  - match goal with
    | |- context [on_failing_run ?n ?t ?r ?s1] =>
        destruct (on_failing_run_spec n t r s1) as (s2 & (Heq & Hh & Hsteps) & Hr & Ht)
    end.
    rewrite Heq. simpl in *. eexists _, s2.
    repeat split; try done. simpl. lia.
  - simpl. eexists _, _. repeat split; try done; simpl; try apply rtc_refl; lia.
Qed.

Lemma for_each_run_check_spec m (l : list HealthCheck) (s : Store Sys) :
  ∃ runs s', returns (for_each (run_check cfg m) l) s runs s'
             ∧ check_runs s' = check_runs s ++ runs ∧ target s' = target s
             ∧ Forall2 (λ hc r, health_check r = hc_id hc
                                ∧ status r = out_status (evaluate cfg m hc)
                                ∧ error_message r = out_error (evaluate cfg m hc)
                                ∧ started_at r ≤ completed_at r) l runs.
Proof.
  revert s. induction l as [|hc l IH]; intros s; simpl.
  - exists [], s. unfold returns, ret. rewrite app_nil_r.
    repeat split; try done; apply rtc_refl.
  - destruct (run_check_spec m hc s) as (r & s1 & (Heq & Hh & Hsteps) & Hr & Ht & Hrun).
    destruct (IH s1) as (runs & s2 & (Heq2 & Hh2 & Hsteps2) & Hr2 & Ht2 & Hruns).
    exists (r :: runs), s2. unfold returns, bind, ret in *. rewrite Heq, Heq2.
    repeat split; try congruence.
    + by etrans.
    + rewrite Hr2, Hr, <- app_assoc. done.
    + by constructor.
Qed.

Lemma run_all_spec m (s : Store Sys) :
  ∃ runs s', returns (run_all cfg m) s (aggregate runs) s'
             ∧ check_runs s' = check_runs s ++ runs ∧ target s' = target s
             ∧ Forall2 (λ hc r, health_check r = hc_id hc
                                ∧ status r = out_status (evaluate cfg m hc)
                                ∧ error_message r = out_error (evaluate cfg m hc)
                                ∧ started_at r ≤ completed_at r)
                       (List.filter enabled (health_checks s)) runs.
Proof.
  destruct (for_each_run_check_spec m (List.filter enabled (health_checks s)) s)
    as (runs & s' & (Heq & Hh & Hsteps) & Hr & Ht & Hruns).
  exists runs, s'. unfold returns, run_all, bind, get, ret in *. rewrite Heq.
  by repeat split.
Qed.

Lemma run_steps m c (s : Store Sys) : table_steps (incidents s) (incidents (run cfg m c s).2).
Proof.
  unfold run, bind, get, ret. simpl.
  destruct (List.find _ _) as [hc|]; [|apply rtc_refl].
  destruct (run_check_spec m hc s) as (r & s' & (Heq & _ & Hsteps) & _).
  by rewrite Heq.
Qed.

(** *** The remediation engine, case by case *)

Lemma accept_request_spec id name (s : Store Sys) :
  accept_request id name s =
  match incidents s !! id with
  | None => (inl (UnknownIncidentError id), s)
  | Some i =>
      if terminal (inc_status i) then (inl (UnknownIncidentError id), s)
      else match parse_strategy name with
           | None => (inl (UnknownStrategyError name), s)
           | Some st => (inr (i, st), s)
           end
  end.
Proof.
  unfold accept_request, bind, get, throw, ret.
  destruct (incidents s !! id) as [i|]; [|done].
  destruct (terminal (inc_status i)); [done|]. by destruct (parse_strategy name).
Qed.

Lemma begin_attempt_eq id (s : Store Sys) : begin_attempt id s = (inr tt, begun id s).
Proof. reflexivity. Qed.

Lemma real_attempt_eq id st (s : Store Sys) :
  real_attempt cfg executors id st (begun id s)
  = (inr (real_record id st s), after_real id st s).
Proof. reflexivity. Qed.

Lemma remediate_spec id name dry (s : Store Sys) :
  remediate cfg executors id name dry s =
  match incidents s !! id with
  | None => (inl (UnknownIncidentError id), s)
  | Some i =>
      if terminal (inc_status i) then (inl (UnknownIncidentError id), s)
      else match parse_strategy name with
           | None => (inl (UnknownStrategyError name), s)
           | Some st =>
               if dry then (inr (dry_record id st s), after_dry id st s)
               else (inr (real_record id st s), after_real id st s)
           end
  end.
Proof.
  unfold remediate, bind. rewrite accept_request_spec.
  destruct (incidents s !! id) as [i|]; [|done].
  destruct (terminal (inc_status i)); [done|].
  destruct (parse_strategy name) as [st|]; [|done]. by destruct dry.
Qed.

Lemma resolve_incident_spec id notes (s : Store Sys) :
  resolve_incident id notes s =
  match incidents s !! id with
  | None => (inl (UnknownIncidentError id), s)
  | Some i =>
      if terminal (inc_status i) then (inl (UnknownIncidentError id), s)
      else (inr tt,
            {| health_checks := health_checks s; check_runs := check_runs s;
               incidents := alter (resolved (clock s) (Some notes)) id (incidents s);
               target := target s; clock := S (clock s) |})
  end.
Proof.
  unfold resolve_incident, bind, get, throw.
  destruct (incidents s !! id) as [i|]; [|done]. by destruct (terminal (inc_status i)).
Qed.

Local Ltac known_name :=
  split; [discriminate | intros Hnot; exfalso; decompose [and] Hnot; congruence].

Lemma parse_strategy_None name :
  parse_strategy name = None
  ↔ name ∉ ["restart_service"; "clear_cache"; "rollback_model"; "scale_hint"].
Proof.
  unfold parse_strategy. rewrite !not_elem_of_cons.
  destruct (String.eqb_spec name "restart_service") as [-> | H1]; [known_name|].
  destruct (String.eqb_spec name "clear_cache") as [-> | H2]; [known_name|].
  destruct (String.eqb_spec name "rollback_model") as [-> | H3]; [known_name|].
  destruct (String.eqb_spec name "scale_hint") as [-> | H4]; [known_name|].
  split; [intros _|done]. split_and!; try done. apply not_elem_of_nil.
Qed.

Lemma retry_count_record a i :
  retry_count (record_attempt a i)
  = retry_count i + (if failed_real a then 1 else 0).
Proof.
  unfold retry_count. simpl. rewrite List.filter_app, length_app. simpl.
  by destruct (failed_real a).
Qed.

Lemma not_exhausted i : esc_ok i -> non_terminal i -> ¬ exhausted i.
Proof.
  unfold esc_ok, non_terminal. intros Hesc Hnt Hex.
  rewrite (Hesc Hex) in Hnt. discriminate.
Qed.

Lemma esc_ok_settle now a i :
  dry_run a = false -> non_terminal i -> esc_ok i ->
  esc_ok (settle cfg now (success a) (record_attempt a i)).
Proof.
  intros Hdry Hnt Hesc. pose proof (not_exhausted i Hesc Hnt) as Hno.
  pose proof (retry_count_record a i) as Hcount.
  unfold failed_real in Hcount. rewrite Hdry in Hcount. simpl in Hcount.
  unfold settle. destruct (success a); simpl in Hcount.
  - intros [Hpos Hmax]. exfalso. apply Hno.
    unfold exhausted, retry_count in *. simpl in *. lia.
  - destruct (Nat.leb_spec (MAX_REMEDIATION_RETRIES cfg) (retry_count (record_attempt a i)))
      as [Hle | Hlt]; [done|].
    intros [Hpos Hmax]. exfalso. unfold retry_count in *. simpl in *. lia.
Qed.

Lemma trigger_settle now ok i : trigger (settle cfg now ok i) = trigger i.
Proof.
  unfold settle. destruct ok; [done|].
  by destruct (MAX_REMEDIATION_RETRIES cfg <=? retry_count i).
Qed.

Lemma remediate_steps id name dry (s : Store Sys) :
  table_steps (incidents s) (incidents (remediate cfg executors id name dry s).2).
Proof.
  rewrite remediate_spec.
  destruct (incidents s !! id) as [i|] eqn:Hi; [|apply rtc_refl].
  destruct (terminal (inc_status i)) eqn:Hterm; [apply rtc_refl|].
  destruct (parse_strategy name) as [st|]; [|apply rtc_refl].
  destruct dry; simpl.
  - apply rtc_once. eapply step_update; eauto.
    intros Hesc Hex. exfalso. apply (not_exhausted i Hesc Hterm).
    unfold exhausted in *. by rewrite retry_count_record in Hex; simpl in Hex;
      rewrite Nat.add_0_r in Hex.
  - eapply rtc_l; [eapply step_update with (f := with_status Remediating); eauto|].
    + intros Hesc Hex. exfalso. by apply (not_exhausted i Hesc Hterm).
    + apply rtc_once. eapply step_update.
      * rewrite list_lookup_alter_eq, Hi. reflexivity.
      * done.
      * by rewrite trigger_settle.
      * intros Hesc.
        exact (esc_ok_settle (S (clock s)) (real_record id st s)
                 (with_status Remediating i) eq_refl eq_refl Hesc).
Qed.

Lemma resolve_steps id notes (s : Store Sys) :
  table_steps (incidents s) (incidents (resolve_incident id notes s).2).
Proof.
  rewrite resolve_incident_spec.
  destruct (incidents s !! id) as [i|] eqn:Hi; [|apply rtc_refl].
  destruct (terminal (inc_status i)) eqn:Hterm; [apply rtc_refl|]. simpl.
  apply rtc_once. eapply step_update; eauto.
  intros Hesc Hex. exfalso. by apply (not_exhausted i Hesc Hterm).
Qed.

Lemma step_table_steps e (s : Store Sys) :
  table_steps (incidents s) (incidents (step cfg executors e s)).
Proof.
  destruct e as [m c | m | id name dry | id notes]; simpl.
  - apply run_steps.
  - destruct (run_all_spec m s) as (runs & s' & (Heq & _ & Hsteps) & _).
    by rewrite Heq.
  - apply remediate_steps.
  - apply resolve_steps.
Qed.

Lemma reachable_invariants (s : Store Sys) :
  reachable cfg executors s -> dedup (incidents s) ∧ Forall esc_ok (incidents s).
Proof.
  induction 1 as [checks sys | e s Hs [IHd IHe]]; simpl.
  - split; [|constructor]. intros j k a b Ha. by rewrite lookup_nil in Ha.
  - pose proof (step_table_steps e s) as Hsteps.
    split; [by eapply dedup_steps | by eapply esc_ok_steps].
Qed.

Lemma filter_none (c : nat) (l : list Incident) :
  Forall (λ x, ¬ active_for c x) l -> filter (active_for c) l = [].
Proof.
  induction 1 as [|x l Hx _ IH]; [done|].
  rewrite filter_cons. by destruct (decide (active_for c x)).
Qed.

Lemma dedup_count (l : list Incident) (c : nat) :
  dedup l -> length (filter (active_for c) l) ≤ 1.
Proof.
  induction l as [|x l IH]; intros Hd; [simpl; lia|].
  assert (dedup l) as Hl.
  { intros j k a b Ha Hb Hna Hnb Hc.
    assert (S j = S k) by (eapply (Hd (S j) (S k)); eauto). lia. }
  rewrite filter_cons. destruct (decide (active_for c x)) as [[Hx Hcx] | _]; [|auto].
  assert (filter (active_for c) l = []) as ->; [|simpl; lia].
  apply filter_none, Forall_lookup. intros k b Hb [Hnb Hcb].
  assert (0 = S k) by (eapply (Hd 0 (S k)); eauto; congruence). lia.
Qed.

(** C1.  In every reachable store each HealthCheck has at most one
    Incident that is open or remediating; and when a failing CheckRun
    arrives while its HealthCheck has such an Incident, the run is
    attached to that Incident, no Incident is created and no other
    Incident changes. *)
Theorem one_active_incident_per_check (s : Store Sys) :
  reachable cfg executors s ->
  (∀ c, length (filter (active_for c) (incidents s)) ≤ 1)
  ∧ dedup (incidents s)
  ∧ ∀ name t r k i,
      incidents s !! k = Some i -> active_for (health_check r) i ->
      length (incidents (on_failing_run name t r s).2) = length (incidents s)
      ∧ incidents (on_failing_run name t r s).2 !! k = Some (attach r i)
      ∧ ∀ j, j ≠ k ->
             incidents (on_failing_run name t r s).2 !! j = incidents s !! j.
Proof.
  intros Hreach. destruct (reachable_invariants s Hreach) as [Hd _].
  split; [intros c; by apply dedup_count|]. split; [done|].
  intros name t r k i Hk Hact.
  unfold on_failing_run, bind, get. simpl.
  destruct (list_find _ _) as [[k' i']|] eqn:Hfind; simpl.
  - apply list_find_Some in Hfind as (Hk' & [Hnt' Hc'] & _).
    destruct Hact as [Hnt Hc].
    assert (k' = k) as -> by (eapply Hd; eauto; congruence).
    rewrite length_alter, list_lookup_alter_eq, Hk. split; [done|]. split; [done|].
    intros j Hj. by apply list_lookup_alter_ne.
  - apply list_find_None in Hfind. rewrite Forall_lookup in Hfind.
    by destruct (Hfind k i Hk).
Qed.

Lemma after_table_steps es (s : Store Sys) :
  table_steps (incidents s) (incidents (after es s)).
Proof.
  revert s. induction es as [|e es IH]; intros s; simpl; [apply rtc_refl|].
  etrans; [apply step_table_steps | apply IH].
Qed.

(** C2.  In every reachable store an Incident whose failed real attempts
    have reached [MAX_REMEDIATION_RETRIES] is escalated, and the failed
    real attempt that brings the counter to the limit escalates it.  An
    escalated Incident stays exactly as it is under every later sequence
    of events: its status does not change, no attempt is recorded on it,
    and [remediate] and [resolve_incident] reject it without touching the
    store. *)
Theorem escalation_is_terminal (s : Store Sys) (k : nat) (i : Incident) :
  reachable cfg executors s -> incidents s !! k = Some i ->
  (exhausted i -> inc_status i = Escalated)
  ∧ (∀ name st,
       non_terminal i -> parse_strategy name = Some st ->
       (execute executors st (target s)).1.1 = false ->
       MAX_REMEDIATION_RETRIES cfg ≤ retry_count i + 1 ->
       ∃ i', incidents (remediate cfg executors k name false s).2 !! k = Some i'
             ∧ inc_status i' = Escalated ∧ retry_count i' = retry_count i + 1)
  ∧ (inc_status i = Escalated ->
       (∀ es, incidents (after es s) !! k = Some i)
       ∧ (∀ name dry,
            remediate cfg executors k name dry s = (inl (UnknownIncidentError k), s))
       ∧ (∀ notes, resolve_incident k notes s = (inl (UnknownIncidentError k), s))).
Proof.
  intros Hreach Hk. destruct (reachable_invariants s Hreach) as [_ Hesc].
  rewrite Forall_lookup in Hesc. split; [exact (Hesc k i Hk)|]. split.
  - intros name st Hnt Hst Hfail Hmax.
    rewrite remediate_spec, Hk, Hnt, Hst. simpl.
    rewrite list_lookup_alter_eq, list_lookup_alter_eq, Hk. simpl.
    eexists. split; [reflexivity|].
    pose proof (retry_count_record (real_record k st s) (with_status Remediating i)) as Hc.
    unfold failed_real in Hc. simpl in Hc. rewrite Hfail in Hc. simpl in Hc.
    change (retry_count (with_status Remediating i)) with (retry_count i) in Hc.
    unfold settle. rewrite Hfail.
    destruct (Nat.leb_spec (MAX_REMEDIATION_RETRIES cfg)
                (retry_count (record_attempt (real_record k st s)
                                (with_status Remediating i)))) as [_ | Hlt].
    + split; [done|]. exact Hc.
    + lia.
  - intros Hst. split; [|split].
    + intros es. eapply terminal_steps; [apply after_table_steps|done|by rewrite Hst].
    + intros name dry. by rewrite remediate_spec, Hk, Hst.
    + intros notes. by rewrite resolve_incident_spec, Hk, Hst.
Qed.



(** *** The runner *)

Lemma evaluate_raised m hc msg :
  source_raises m hc msg -> evaluate cfg m hc = raised msg.
Proof.
  unfold source_raises, evaluate. by destruct (check_type hc); intros ->.
Qed.

Lemma aggregate_counts (runs : list CheckRun) :
  total (aggregate runs) = length runs
  ∧ passed (aggregate runs) = length (List.filter is_passed runs)
  ∧ failed (aggregate runs) = length (List.filter (λ r, negb (is_passed r)) runs)
  ∧ total (aggregate runs) = passed (aggregate runs) + failed (aggregate runs).
Proof.
  repeat split. simpl. induction runs as [|r runs IH]; [done|].
  simpl. destruct (is_passed r); simpl; lia.
Qed.

Lemma runs_follow_checks (l : list HealthCheck) (runs : list CheckRun) :
  Forall2 (λ hc r, health_check r = hc_id hc) l runs ->
  health_check <$> runs = hc_id <$> l.
Proof.
  induction 1 as [|hc r l rs Hid _ IH]; [done|].
  rewrite !fmap_cons. by rewrite Hid, IH.
Qed.


End Facts.
End CoreFacts.

(** ** The incident state machine on the sample stores *)
Module CoreExamples.
Import Core CoreFacts Samples.

(** The hypothesis of [one_active_incident_per_check] holds of the store
    reached by two failing runs of the same check: it has one Incident. *)
Lemma one_active_incident_per_check_witness :
  reachable core_cfg failing_executors twice_failed_store
  ∧ length (filter (active_for 7) (incidents twice_failed_store)) ≤ 1
  ∧ length (incidents twice_failed_store) = 1
  ∧ (length ∘ attached_runs <$> incidents twice_failed_store) = [1].
Proof.
  assert (reachable core_cfg failing_executors twice_failed_store) as Hreach.
  { apply reachable_step, reachable_step, reachable_init. }
  split; [exact Hreach|]. split; [|split; reflexivity].
  exact (proj1 (one_active_incident_per_check core_cfg failing_executors _ Hreach) 7).
Defined.

(** The hypotheses of [escalation_is_terminal] hold of the Incident that
    three failed real attempts have escalated. *)
Lemma escalation_is_terminal_witness :
  reachable core_cfg failing_executors escalated_store
  ∧ (retry_count <$> incidents escalated_store !! 0) = Some 3
  ∧ (inc_status <$> incidents escalated_store !! 0) = Some Escalated.
Proof.
  assert (reachable core_cfg failing_executors escalated_store) as Hreach.
  { do 4 apply reachable_step. apply reachable_init. }
  split; [exact Hreach|]. split; [vm_compute; reflexivity|].
  destruct (incidents escalated_store !! 0) as [i|] eqn:Hi;
    [|vm_compute in Hi; discriminate].
  simpl. f_equal.
  apply (proj1 (escalation_is_terminal core_cfg failing_executors
                  escalated_store 0 i Hreach Hi)).
  vm_compute in Hi. injection Hi as <-. split; vm_compute; lia.
Defined.



(** The scenarios of the specification. *)
Example scenario_failed_latency_check :
  (status <$> check_runs open_store) = [Failed]
  ∧ ((λ i, (severity i, inc_status i)) <$> incidents open_store) = [(High, Open)].
Proof. split; reflexivity. Qed.

Example scenario_successful_remediation :
  ((λ i, (inc_status i, resolved_at i)) <$> incidents resolved_store)
  = [(Resolved, Some 4)].
Proof. reflexivity. Qed.

Example scenario_new_incident_after_escalation :
  (inc_status <$>
     incidents (step core_cfg failing_executors (EvRun slow_source 7) escalated_store))
  = [Escalated; Open].
Proof. reflexivity. Qed.

Example scenario_run_all_with_failing_source :
  (run_all core_cfg
     {| sample := λ _ _, inl "timeout"; sample_distribution := λ _, inl "timeout" |}
     empty_store).1
  = inr {| total := 1; passed := 0; failed := 1;
           results := [{| run_id := 0; health_check := 7; status := Error;
                          result_value := None; result_details := "Inference latency";
                          error_message := Some "timeout";
                          started_at := 0; completed_at := 1 |}] |}.
Proof. reflexivity. Qed.

End CoreExamples.

(** ** The rightsizing engine *)
Module RightsizingFacts.
Import Rightsizing.
Local Open Scope Q_scope.

Lemma fits_iff cfg p95 cur cand :
  fits cfg p95 cur cand = true
  ↔ (capacity cand < capacity cur)%positive
    ∧ projected_utilization p95 cur cand < safety_ceiling cfg.
Proof.
  unfold fits. rewrite andb_true_iff, Pos.ltb_lt, DriftFacts.Qlt_bool_iff. done.
Qed.

Lemma filter_no_fit (p : InstanceType -> bool) (l : list InstanceType) :
  (∀ t, t ∈ l -> p t = false) -> List.filter p l = [].
Proof.
  induction l as [|x l IH]; intros Hall; [done|]. simpl.
  rewrite (Hall x) by left. apply IH. intros t Ht. apply Hall. by right.
Qed.

Lemma cheapest_sound (l : list InstanceType) (t : InstanceType) :
  cheapest l = Some t -> t ∈ l.
Proof.
  revert t. induction l as [|x l IH]; intros t; simpl; [done|].
  destruct (cheapest l) as [u|].
  - destruct (Drift.Qlt_bool (hourly_price u) (hourly_price x)); intros [= <-].
    + right. by apply IH.
    + left.
  - intros [= <-]. left.
Qed.

Section Engine.
Variable cfg : Config.
Variable catalog : list InstanceType.
Variable choose : list InstanceType -> option InstanceType.

(** The policy picks among the types it is offered. *)
Hypothesis choose_sound : ∀ l t, choose l = Some t -> t ∈ l.

Lemma recommend_Some a o :
  recommend cfg catalog choose a = Some o ->
  opp_instance_id o = instance_id a
  ∧ utilization_basis o = p95_cpu a
  ∧ lookup_type catalog (instance_type a) = Some (current_type o)
  ∧ classify cfg a = Candidate
  ∧ recommended_type o ∈ catalog
  ∧ fits cfg (p95_cpu a) (current_type o) (recommended_type o) = true.
Proof.
  unfold recommend. destruct (lookup_type catalog (instance_type a)) as [cur|]; [|done].
  simpl. destruct (classify cfg a); try done.
  destruct (choose _) as [rec|] eqn:Hrec; [|done]. simpl. intros [= <-]. simpl.
  apply choose_sound, list_elem_of_In, List.filter_In in Hrec as [Hin Hfit].
  apply list_elem_of_In in Hin. done.
Qed.

(** C7.  Every opportunity the engine emits comes from one of the
    instances analysed and recommends a type of the catalog that is
    strictly smaller than the current type and whose projected utilization
    (P95 x current capacity / recommended capacity) is below the safety
    ceiling; for an instance with no such type in the catalog nothing is
    emitted. *)
Theorem recommendations_stay_below_ceiling (aggs : list InstanceAggregate) :
  (∀ o, o ∈ get_rightsizing_opportunities cfg catalog choose aggs ->
        (∃ a, a ∈ aggs ∧ recommend cfg catalog choose a = Some o
              ∧ opp_instance_id o = instance_id a
              ∧ utilization_basis o = p95_cpu a)
        ∧ recommended_type o ∈ catalog
        ∧ (capacity (recommended_type o) < capacity (current_type o))%positive
        ∧ projected_utilization (utilization_basis o) (current_type o)
            (recommended_type o) < safety_ceiling cfg)
  ∧ (∀ a cur,
        lookup_type catalog (instance_type a) = Some cur ->
        (∀ t, t ∈ catalog -> fits cfg (p95_cpu a) cur t = false) ->
        recommend cfg catalog choose a = None
        ∧ get_rightsizing_opportunities cfg catalog choose [a] = []).
Proof.
  split.
  - intros o Ho. apply list_elem_of_omap in Ho as (a & Ha & Hrec).
    destruct (recommend_Some a o Hrec) as (Hid & Hbasis & _ & _ & Hin & Hfit).
    apply fits_iff in Hfit as [Hcap Hproj].
    split; [by exists a|]. split; [done|]. split; [done|]. by rewrite Hbasis.
  - intros a cur Hcur Hnone.
    assert (recommend cfg catalog choose a = None) as Hrec.
    { unfold recommend. rewrite Hcur. simpl. destruct (classify cfg a); try done.
      rewrite (filter_no_fit _ _ Hnone).
      destruct (choose []) as [t|] eqn:Ht; [|done].
      apply choose_sound in Ht. by apply elem_of_nil in Ht. }
    split; [done|]. unfold get_rightsizing_opportunities. simpl. by rewrite Hrec.
Qed.

End Engine.

(** The hypothesis of [recommendations_stay_below_ceiling] holds of the
    cheapest-type policy; on the sample catalog the 4-vCPU instance at
    18% P95 gets the 2-vCPU type, at a projected 36%. *)
Lemma recommendations_stay_below_ceiling_witness :
  (recommended_type <$>
     get_rightsizing_opportunities Samples.rs_cfg Samples.catalog cheapest
       [Samples.aws_0012; Samples.aws_0013])
  = [Samples.m5_large]
  ∧ recommend Samples.rs_cfg Samples.catalog cheapest Samples.aws_0013 = None.
Proof.
  split; [reflexivity|].
  refine (proj1 (proj2 (recommendations_stay_below_ceiling Samples.rs_cfg
                          Samples.catalog cheapest cheapest_sound [])
                   Samples.aws_0013 Samples.m5_large eq_refl _)).
  intros t Ht. apply list_elem_of_In in Ht.
  destruct Ht as [<- | [<- | []]]; reflexivity.
Defined.

Example scenario_rightsizing :
  (λ o, (type_name (recommended_type o),
         Qred (projected_utilization (utilization_basis o) (current_type o)
                 (recommended_type o)),
         Qred (estimated_monthly_savings o), confidence o))
    <$> get_rightsizing_opportunities Samples.rs_cfg Samples.catalog cheapest
          [Samples.aws_0012]
  = [("m5.large", 9 # 25, 1752 # 25, ConfHigh)].
Proof. reflexivity. Qed.

End RightsizingFacts.

(** ** The dashboard's latency history and running marks *)
Module DashboardStateFacts.
Import JS Api DashboardState.

Lemma slice_last_short {A} (n : nat) (l : list A) :
  length l ≤ n -> slice_last n l = l.
Proof.
  intros Hl. unfold slice_last. by replace (length l - n) with 0 by lia.
Qed.

Lemma length_slice_last {A} (n : nat) (l : list A) :
  length (slice_last n l) = length l `min` n.
Proof. unfold slice_last. rewrite length_drop. lia. Qed.

Lemma slice_last_app {A} (n : nat) (l m : list A) :
  slice_last n (slice_last n l ++ m) = slice_last n (l ++ m).
Proof.
  destruct (decide (length l ≤ n)) as [Hl | Hl].
  - by rewrite (slice_last_short n l).
  - unfold slice_last. rewrite !length_app, length_drop.
    replace (length l - (length l - n) + length m - n) with (length m) by lia.
    replace (length l + length m - n) with ((length l - n) + length m) by lia.
    rewrite <- drop_drop. f_equal. rewrite drop_app_le by lia. done.
Qed.

Lemma historyAfter_slice (polls : list (list HealthCheck)) (prev : list LatencyEntry) :
  slice_last 20 (historyAfter polls prev) = slice_last 20 (prev ++ omap newEntry polls).
Proof.
  revert prev. induction polls as [|checks polls IH]; intros prev; simpl.
  - by rewrite app_nil_r.
  - unfold historyAfter in *. simpl. rewrite IH. unfold updateLatencyHistory.
    destruct (newEntry checks) as [e|]; simpl; [|done].
    rewrite slice_last_app, <- app_assoc. done.
Qed.

Lemma historyAfter_length (polls : list (list HealthCheck)) (prev : list LatencyEntry) :
  length prev ≤ 20 -> length (historyAfter polls prev) ≤ 20.
Proof.
  revert prev. induction polls as [|checks polls IH]; intros prev Hprev; [done|].
  unfold historyAfter in *. simpl. apply IH. unfold updateLatencyHistory.
  destruct (newEntry checks); [|done]. rewrite length_slice_last. lia.
Qed.

(** X1.  Starting from a history of at most 20 entries, after any series
    of polls the latency history holds at most 20 entries and is exactly
    the last 20 of the old history followed by the entries the polls
    recorded, in order; a poll records an entry only when the first
    latency check of the list has a last run with a truthy value. *)
Theorem latency_history_window (polls : list (list HealthCheck))
    (prev : list LatencyEntry) :
  length prev ≤ 20 ->
  length (historyAfter polls prev) ≤ 20
  ∧ historyAfter polls prev = slice_last 20 (prev ++ omap newEntry polls)
  ∧ ∀ checks e, newEntry checks = Some e ->
      ∃ c r, List.find (λ c, String.eqb (check_type c) "latency") checks = Some c
             ∧ last_run c = Some r ∧ result_value r = Some (value e)
             ∧ truthy (value e) = true ∧ timestamp e = started_at r.
Proof.
  intros Hprev. pose proof (historyAfter_length polls prev Hprev) as Hlen.
  split; [done|]. split.
  - rewrite <- historyAfter_slice. by rewrite slice_last_short.
  - intros checks e. unfold newEntry, latencyCheck.
    destruct (List.find _ checks) as [c|]; [|done]. simpl.
    destruct (last_run c) as [r|] eqn:Hr; [|done]. simpl.
    destruct (result_value r) as [v|] eqn:Hval; [|done]. simpl.
    destruct (truthy v) eqn:Hv; [|done]. intros [= <-]. exists c, r. by repeat split.
Qed.

(** The hypothesis of [latency_history_window] holds of the empty
    history; 25 polls that each see a latency of 3 ms leave 20 entries. *)
Lemma latency_history_window_witness :
  length (historyAfter
            (replicate 25 [Samples.check_with "latency"
                             (Some (Samples.run_with "passed" (Some (of_Z 3))))]) [])
  ≤ 20
  ∧ length (historyAfter
              (replicate 25 [Samples.check_with "latency"
                               (Some (Samples.run_with "passed" (Some (of_Z 3))))]) [])
    = 20.
Proof.
  split; [|reflexivity].
  exact (proj1 (latency_history_window
                  (replicate 25 [Samples.check_with "latency"
                                   (Some (Samples.run_with "passed" (Some (of_Z 3))))])
                  [] (Nat.le_0_l 20))).
Defined.

Example zero_latency_is_not_recorded :
  historyAfter [[Samples.check_with "latency"
                   (Some (Samples.run_with "passed" (Some (of_Z 0))))];
                [Samples.check_with "latency" None;
                 Samples.check_with "latency"
                   (Some (Samples.run_with "passed" (Some (of_Z 3))))]] []
  = [].
Proof. reflexivity. Qed.

Lemma handle_running (st : State) (e : RunEvent) (i : Z) :
  i ∈ runningChecks (handle st e)
  ↔ match e with
    | Begin j => i = j ∨ i ∈ runningChecks st
    | Settle j _ => i ≠ j ∧ i ∈ runningChecks st
    end.
Proof.
  destruct e as [j | j [result | reason]]; simpl;
    unfold markRunning, unmarkRunning; set_solver.
Qed.

Lemma handle_refetches (st : State) (e : RunEvent) :
  refetches (handle st e) = refetches st + (if came_back e then 1 else 0).
Proof. destruct e as [j | j [result | reason]]; simpl; lia. Qed.


End DashboardStateFacts.

(** ** The status badges against the status counters *)
Module CardStatusFacts.
Import Api Dashboard CardStatus.

Lemma color_of_bucket (check : HealthCheck) :
  (getStatusColor check = "#10B981" ↔ bucket check = Passing)
  ∧ (getStatusColor check = "#EF4444" ↔ bucket check = Failing ∧ other_status check = false)
  ∧ (bucket check = Pending -> getStatusColor check = "#64748B"
                               ∧ getStatusLabel check = "Not Run").
Proof.
  unfold getStatusColor, getStatusLabel, bucket, other_status.
  destruct (last_run check) as [r|]; [|intuition congruence].
  destruct (String.eqb (status r) "passed"); [intuition congruence|].
  destruct (String.eqb (status r) "failed"); [intuition congruence|].
  destruct (String.eqb (status r) "running"); simpl; intuition congruence.
Qed.

(** X3.  Over any list of checks the "Passing" counter of the dashboard
    is the number of green badges; the "Failing" counter is the number of
    red badges plus the number of checks whose last run has a status
    other than ['passed'] and ['failed'] (for instance ['error'] or
    ['running']), which are counted as failing without being shown red;
    and every check without a last run is gray and labelled
    ['Not Run']. *)
Theorem badges_and_counters (healthChecks : list HealthCheck) :
  passed (getStatusCounts healthChecks) = colored "#10B981" healthChecks
  ∧ failed (getStatusCounts healthChecks)
    = colored "#EF4444" healthChecks
      + length (filter (λ c, other_status c = true) healthChecks)
  ∧ pending (getStatusCounts healthChecks) ≤ colored "#64748B" healthChecks
  ∧ Forall (λ c, last_run c = None ->
                 getStatusColor c = "#64748B" ∧ getStatusLabel c = "Not Run")
           healthChecks.
Proof.
  destruct (DashboardFacts.foldl_count_check healthChecks
              {| passed := 0; failed := 0; pending := 0 |}) as (Hp & Hf & Hn).
  simpl in Hp, Hf, Hn. unfold getStatusCounts. rewrite Hp, Hf, Hn.
  unfold in_bucket, colored. clear Hp Hf Hn.
  induction healthChecks as [|c l (IHp & IHf & IHn & IHa)]; [by repeat split|].
  destruct (color_of_bucket c) as (Hgreen & Hred & Hgray).
  rewrite !filter_cons.
  split; [|split; [|split]].
  - destruct (decide (bucket c = Passing)) as [Hb | Hb];
      destruct (decide (getStatusColor c = "#10B981")) as [Hc | Hc]; simpl;
      [by rewrite IHp | by apply Hgreen in Hb | by apply Hgreen in Hc | done].
  - destruct (decide (bucket c = Failing)) as [Hb | Hb];
      destruct (decide (getStatusColor c = "#EF4444")) as [Hc | Hc];
      destruct (decide (other_status c = true)) as [Ho | Ho]; simpl; rewrite ?IHf;
      try lia.
    + apply Hred in Hc as [_ Hc]. congruence.
    + exfalso. apply Hc, Hred. split; [done|]. by destruct (other_status c).
    + apply Hred in Hc as [Hc _]. done.
    + apply Hred in Hc as [Hc _]. done.
    + exfalso. apply Hb. revert Ho. unfold other_status, bucket.
      destruct (last_run c) as [r|]; [|done].
      by destruct (String.eqb (status r) "passed").
  - destruct (decide (bucket c = Pending)) as [Hb | Hb];
      destruct (decide (getStatusColor c = "#64748B")) as [Hc | Hc]; simpl; try lia.
    by destruct (Hgray Hb).
  - constructor; [|done]. intros Hnone. apply Hgray. unfold bucket. by rewrite Hnone.
Qed.

Example badges_sample :
  (λ st, (getStatusColor (Samples.check_with "latency" (Some (Samples.run_with st None))),
          getStatusLabel (Samples.check_with "latency" (Some (Samples.run_with st None)))))
    <$> ["passed"; "failed"; "running"; "error"]
  = [("#10B981", "Passed"); ("#EF4444", "Failed"); ("#F59E0B", "Running");
     ("#64748B", "error")].
Proof. reflexivity. Qed.

End CardStatusFacts.

(** ** The grouping of the incident timeline *)
Module TimelineChartFacts.
Import JS TimelineChart.

Section Host.
Variable inherited : string -> bool.

Lemma bySeverity_snoc (l : list TimelineIncident) (x : TimelineIncident) :
  bySeverity inherited (l ++ [x]) = group_step inherited (bySeverity inherited l) x.
Proof. unfold bySeverity. by rewrite foldl_snoc. Qed.

Lemma of_severity_snoc sev (l : list TimelineIncident) (x : TimelineIncident) :
  of_severity sev (l ++ [x])
  = of_severity sev l ++ (if decide (severity x = sev) then [x] else []).
Proof.
  unfold of_severity. rewrite filter_app, filter_cons, filter_nil.
  by destruct (decide (severity x = sev)).
Qed.

Lemma of_severity_none sev (l : list TimelineIncident) :
  Forall (λ inc, severity inc ≠ sev) l -> of_severity sev l = [].
Proof.
  unfold of_severity. induction 1 as [|x l Hx _ IH]; [done|].
  by rewrite filter_cons, decide_False.
Qed.

Lemma bySeverity_groups (incidents : list TimelineIncident) :
  Forall (λ inc, inherited (severity inc) = false) incidents ->
  ∃ m, bySeverity inherited incidents = inr m
       ∧ ∀ sev, m !! sev = match of_severity sev incidents with
                           | [] => None
                           | g => Some g
                           end.
Proof.
  induction incidents as [|x l IH] using rev_ind; intros Hall.
  - exists ∅. split; [done|]. intros sev. by rewrite lookup_empty.
  - apply Forall_app in Hall as [Hl Hx]. apply Forall_inv in Hx.
    simpl in Hx.
    destruct (IH Hl) as (m & Hm & Hlook). rewrite bySeverity_snoc, Hm. simpl.
    pose proof (Hlook (severity x)) as Hsev.
    destruct (m !! severity x) as [items|] eqn:Hitems.
    + eexists. split; [reflexivity|]. intros sev.
      rewrite of_severity_snoc.
      destruct (decide (severity x = sev)) as [<- | Hne].
      * rewrite lookup_insert_eq.
        destruct (of_severity (severity x) l) as [|y g]; [done|].
        by simplify_eq.
      * rewrite lookup_insert_ne by done. rewrite app_nil_r. apply Hlook.
    + rewrite Hx. eexists. split; [reflexivity|]. intros sev.
      rewrite of_severity_snoc.
      destruct (decide (severity x = sev)) as [<- | Hne].
      * rewrite lookup_insert_eq.
        by destruct (of_severity (severity x) l).
      * rewrite lookup_insert_ne by done. rewrite app_nil_r. apply Hlook.
Qed.

(** X4.  [IncidentTimelineChart] groups its incidents by severity: when
    no severity is a name inherited from [Object.prototype], every
    severity that occurs gets one group holding exactly the incidents of
    that severity in their original order, a severity that does not occur
    gets none, and the groups together hold every incident once.  As soon
    as one incident has such an inherited name as severity (for instance
    ['constructor']), the reduction throws a TypeError and no chart is
    drawn. *)
Theorem timeline_groups (incidents : list TimelineIncident) :
  (Forall (λ inc, inherited (severity inc) = false) incidents ->
   ∃ m, bySeverity inherited incidents = inr m
        ∧ (∀ sev g, m !! sev = Some g ↔ g = of_severity sev incidents ∧ g ≠ [])
        ∧ (∀ inc, inc ∈ incidents ->
                  ∃ g, m !! severity inc = Some g ∧ inc ∈ g))
  ∧ (Exists (λ inc, inherited (severity inc) = true) incidents ->
     bySeverity inherited incidents = inl NotAFunction).
Proof.
  split.
  - intros Hall. destruct (bySeverity_groups incidents Hall) as (m & Hm & Hlook).
    exists m. split; [done|]. split.
    + intros sev g. rewrite Hlook.
      destruct (of_severity sev incidents) as [|y l] eqn:Hg.
      * split; [done|]. by intros [-> ?].
      * split; [by intros [= <-] | by intros [-> _]].
    + intros inc Hinc. rewrite Hlook.
      assert (inc ∈ of_severity (severity inc) incidents) as Hin.
      { unfold of_severity. by apply list_elem_of_filter. }
      destruct (of_severity (severity inc) incidents) as [|y l] eqn:Hg;
        [by apply elem_of_nil in Hin|].
      by eexists.
  - induction incidents as [|x l IH] using rev_ind; intros Hex.
    + by apply Exists_nil in Hex.
    + rewrite bySeverity_snoc.
      destruct (decide (Exists (λ inc, inherited (severity inc) = true) l)) as [Hl | Hl].
      * by rewrite (IH Hl).
      * apply Exists_app in Hex as [Hex | Hex]; [done|].
        apply Exists_cons in Hex as [Hx | Hex]; [|by apply Exists_nil in Hex].
        apply not_Exists_Forall in Hl; [|intros ?; apply _].
        assert (Forall (λ inc, inherited (severity inc) = false) l) as Hok.
        { eapply Forall_impl; [exact Hl|]. intros inc Hinc. simpl in Hinc.
          by destruct (inherited (severity inc)). }
        destruct (bySeverity_groups l Hok) as (m & Hm & Hlook).
        rewrite Hm. simpl. rewrite Hlook.
        assert (of_severity (severity x) l = []) as ->; [|by rewrite Hx].
        apply of_severity_none. eapply Forall_impl; [exact Hok|].
        intros inc Hinc Heq. simpl in Hinc. congruence.
Qed.

End Host.

Example severity_constructor_breaks_the_chart :
  bySeverity in_object_prototype
    [ {| date := "2024-01-01"; count := of_Z 1; severity := "high" |};
      {| date := "2024-01-02"; count := of_Z 2; severity := "constructor" |} ]
  = inl NotAFunction.
Proof. reflexivity. Qed.

Example severities_grouped_in_order :
  let a := {| date := "2024-01-01"; count := of_Z 1; severity := "high" |} in
  let b := {| date := "2024-01-02"; count := of_Z 2; severity := "low" |} in
  let c := {| date := "2024-01-03"; count := of_Z 3; severity := "high" |} in
  bySeverity in_object_prototype [a; b; c]
  = inr (<["low" := [b]]> (<["high" := [a; c]]> ∅)).
Proof. vm_compute. reflexivity. Qed.

End TimelineChartFacts.

(** ** The request behind every exported function of api.ts *)
Module RequestFacts.
Import JS Api ApiRequests.

Section Client.
Variable stringify : JSON -> string.
Variable form_urlencode : string -> string.

Lemma fetchAPI_request fetch (rest : string) (options : option RequestInit) :
  fetchAPI fetch ("/" +:+ rest) options
  = outcome_of (fetch ("/api/" +:+ rest) (request_init options)).
Proof.
  unfold fetchAPI, outcome_of.
  change (API_BASE +:+ "/" +:+ rest) with ("/api/" +:+ rest).
  destruct (fetch _ _) as [response | reason]; [|done].
  by destruct (ok response).
Qed.

Lemma request_init_headers (options : option RequestInit) :
  (options ≫= headers) = None ->
  headers (request_init options) = Some {[ "Content-Type" := "application/json" ]}.
Proof.
  destruct options as [o|]; simpl; intros Hh.
  - rewrite Hh. simpl. by rewrite (left_id_L ∅ (∪)).
  - by rewrite (left_id_L ∅ (∪)).
Qed.

Lemma request_init_post (payload : option JSON) :
  headers (request_init (post stringify payload))
    = Some {[ "Content-Type" := "application/json" ]}
  ∧ method (request_init (post stringify payload)) = Some "POST".
Proof. split; [by apply request_init_headers | done]. Qed.

Lemma request_init_get :
  headers (request_init None) = Some {[ "Content-Type" := "application/json" ]}
  ∧ method (request_init None) = None ∧ body (request_init None) = None.
Proof. split; [by apply request_init_headers | done]. Qed.

(** X5.  Every exported function of the client sends exactly one request,
    fixed by its arguments alone: to a URL under [/api/], with the single
    header [Content-Type: application/json], and either without method and
    body (a GET) or with method POST; a body is never sent with a GET.
    What the function returns is decided by the response to that request
    and by nothing else. *)
Theorem one_request_per_call (c : ApiCall) :
  ∃ (rest : string) (init : RequestInit),
    (∀ fetch, invoke fetch stringify form_urlencode c
              = outcome_of (fetch ("/api/" +:+ rest) init))
    ∧ headers init = Some {[ "Content-Type" := "application/json" ]}
    ∧ (method init = None ∧ body init = None ∨ method init = Some "POST").
Proof.
  destruct c; simpl; eexists _, _;
    (split; [intros fetch; apply fetchAPI_request|]);
    first [ (split; [apply request_init_get | left; apply request_init_get])
          | (split; [apply request_init_post | right; apply request_init_post]) ].
Qed.

End Client.
End RequestFacts.

(** ** Polling of the dashboard *)
Module DashboardPollingFacts.
Import JS Api DashboardPolling.

Section Page.
Variables Incident Summary : Type.
Variable syntax_error_message : string.

Local Abbreviation Polled := (Polled Incident Summary).
Local Abbreviation after := (after Incident Summary syntax_error_message).
Local Abbreviation fetchData := (fetchData Incident Summary syntax_error_message).

Lemma after_snoc (polls : list Polled) (all : Polled) :
  after (polls ++ [all]) = fetchData all (after polls).
Proof. unfold DashboardPolling.after. by rewrite foldl_snoc. Qed.

Lemma delivered_snoc (polls : list Polled) (all : Polled) :
  delivered (polls ++ [all])
  = delivered polls ++ match all with Resolved x => [x] | Rejected _ => [] end.
Proof. unfold delivered. rewrite omap_app. by destruct all. Qed.

Lemma historyAfter_snoc (polls : list (list HealthCheck)) (checks : list HealthCheck)
    (prev : list DashboardState.LatencyEntry) :
  DashboardState.historyAfter (polls ++ [checks]) prev
  = DashboardState.updateLatencyHistory checks (DashboardState.historyAfter polls prev).
Proof. unfold DashboardState.historyAfter. by rewrite foldl_snoc. Qed.

Lemma after_shows (polls : list Polled) :
  healthChecks (after polls) = default [] ((λ x, x.1.1) <$> last (delivered polls))
  ∧ incidents (after polls) = default [] ((λ x, take 5 x.1.2) <$> last (delivered polls))
  ∧ incidentSummary (after polls) = snd <$> last (delivered polls)
  ∧ latencyHistory (after polls)
    = DashboardState.historyAfter ((λ x, x.1.1) <$> delivered polls) [].
Proof.
  induction polls as [|all polls IH] using rev_ind; [done|].
  rewrite after_snoc, delivered_snoc.
  destruct IH as (IHc & IHi & IHs & IHl).
  destruct all as [[[checks incs] summary] | err].
  - rewrite last_snoc, fmap_app.
    change ((λ x : list HealthCheck * list Incident * Summary, x.1.1)
              <$> [(checks, incs, summary)]) with [checks].
    rewrite historyAfter_snoc, <- IHl. done.
  - rewrite app_nil_r. done.
Qed.


End Page.
End DashboardPollingFacts.

(** ** Feedback of the actions of the Incidents page *)
Module IncidentActionsFacts.
Import JS Api IncidentActions.

Section Page.
Variable fetch : string -> RequestInit -> Promise string Response.
Variable stringify : JSON -> string.
Variable Incident : Type.

Local Abbreviation State := (State Incident).
Local Abbreviation handleRemediate := (handleRemediate fetch stringify Incident).
Local Abbreviation handleResolve := (handleResolve fetch stringify Incident).

Lemma remediate_outcome (incidentId : Z) (strategy : string) (dryRun : option bool) :
  remediate fetch stringify incidentId strategy dryRun
  = ApiRequests.outcome_of
      (fetch "/api/remediate" (remediate_init stringify incidentId strategy dryRun)).
Proof.
  unfold remediate.
  rewrite (RequestFacts.fetchAPI_request fetch "remediate").
  unfold remediate_init, request_init, post. simpl.
  by rewrite (left_id_L ∅ (∪)).
Qed.

(** X7.  [handleRemediate] sends one POST to [/api/remediate] and reports
    on the response.  It shows 'Remediation successful' exactly when the
    response is ok and its body is a JSON object whose (last) member
    [success] is truthy, so also for a dry run and for a [success] that
    is a non-empty string; it shows 'Error executing remediation' exactly
    when the request failed, the response was not ok, or its body was not
    JSON or was [null]; every other response shows 'Remediation failed'.
    Unless the error is shown, the handler closes the detail panel and
    refetches the list; when it is shown, the panel and the list stay as
    they are.  [handleResolve] shows 'Incident resolved', closes the panel
    and refetches exactly when its call resolved. *)
Theorem action_feedback (incidentId : Z) (strategy : string) (dryRun : option bool)
    (st : State) :
  let settled :=
    fetch "/api/remediate" (remediate_init stringify incidentId strategy dryRun) in
  let st' := handleRemediate incidentId strategy dryRun st in
  let st'' := handleResolve incidentId st in
  (toast st' = Some "Remediation successful"
   ↔ ∃ response members success,
       settled = Resolved response ∧ ok response = true
       ∧ json response = Some (JObject members)
       ∧ last_member "success" members = Some success
       ∧ to_boolean success = true)
  ∧ (toast st' = Some "Error executing remediation"
     ↔ ∀ response, settled = Resolved response -> ok response = true ->
                   json response = None ∨ json response = Some JNull)
  ∧ (toast st' = Some "Remediation successful" ∨ toast st' = Some "Remediation failed"
     ∨ toast st' = Some "Error executing remediation")
  ∧ (if decide (toast st' = Some "Error executing remediation")
     then selectedIncident st' = selectedIncident st ∧ refetches st' = refetches st
     else selectedIncident st' = None ∧ refetches st' = S (refetches st))
  ∧ (match resolveIncident fetch stringify incidentId (Some "Manually resolved") with
     | Resolved _ =>
         toast st'' = Some "Incident resolved" ∧ selectedIncident st'' = None
         ∧ refetches st'' = S (refetches st)
     | Rejected _ =>
         toast st'' = Some "Failed to resolve incident"
         ∧ selectedIncident st'' = selectedIncident st
         ∧ refetches st'' = refetches st
     end).
Proof.
  intros settled st' st''. subst st' st''.
  unfold IncidentActions.handleRemediate, IncidentActions.handleResolve.
  rewrite remediate_outcome. fold settled.
  destruct (resolveIncident _ _ _ _) as [? | ?].
  all: destruct settled as [response | reason]; simpl.
  all: try destruct (ok response) eqn:Hok; simpl.
  all: try destruct (json response) as [[| b | n | s | items | members] |] eqn:Hjson; simpl.
  all: try destruct (last_member "success" members) as [success|] eqn:Hmem; simpl.
  all: try destruct (to_boolean success) eqn:Hbool; simpl.
  all: split_and!; try done.
  all: try (by right; right).
  all: try (by right; left).
  all: try (by left).
  all: try (split; [done|]; intros (r & m & v & Hr & Hokr & Hj & Hm & Hb);
            simplify_eq; congruence).
  all: try (split; [done|]; intros Hall;
            match goal with
            | Hok : ok _ = true |- _ =>
                destruct (Hall _ eq_refl Hok) as [Hn | Hn]; congruence
            end).
  all: try (split; [intros _|done]; intros r Hr Hokr; simplify_eq;
            first [congruence | by left | by right]).
  all: try (split; [intros _|done]; by eexists _, _, _).
Qed.

End Page.
End IncidentActionsFacts.

(** ** The pie chart of the checks *)
Module DashboardChartsFacts.
Import Stdlib.Strings.Ascii JS Api DashboardCharts.

Lemma split_space_cons (s : string) : ∃ w ws, split_space s = w :: ws.
Proof.
  destruct s as [|c r]; simpl; [by eexists _, _|].
  destruct (Ascii.eqb c " "%char); [by eexists _, _|].
  destruct (split_space r); by eexists _, _.
Qed.

Lemma concat_cons_cons (sep x y : string) (l : list string) :
  String.concat sep (x :: y :: l) = x +:+ sep +:+ String.concat sep (y :: l).
Proof. done. Qed.

Lemma concat_String (c : Ascii.ascii) (w : string) (ws : list string) :
  String.concat " " (String c w :: ws) = String c (String.concat " " (w :: ws)).
Proof. by destruct ws. Qed.

Lemma join_split (s : string) : String.concat " " (split_space s) = s.
Proof.
  induction s as [|c r IH]; [done|]. simpl.
  destruct (Ascii.eqb_spec c " "%char) as [-> | Hc].
  - destruct (split_space_cons r) as (w & ws & Hr). rewrite Hr in *.
    rewrite concat_cons_cons, IH. done.
  - destruct (split_space_cons r) as (w & ws & Hr). rewrite Hr in *.
    by rewrite concat_String, IH.
Qed.

Lemma spaces_app (a b : string) : spaces (a +:+ b) = spaces a + spaces b.
Proof.
  induction a as [|c a IH]; [done|].
  change (String c a +:+ b) with (String c (a +:+ b)). simpl. rewrite IH. lia.
Qed.

Lemma split_space_words (s : string) :
  Forall (λ w, spaces w = 0) (split_space s)
  ∧ length (split_space s) = S (spaces s).
Proof.
  induction s as [|c r [IHw IHl]]; [by repeat constructor|]. simpl.
  destruct (Ascii.eqb_spec c " "%char) as [-> | Hc].
  - split; [by constructor | simpl; lia].
  - destruct (split_space r) as [|w ws]; [done|].
    apply Forall_cons in IHw as [Hw Hws]. split; [|done].
    constructor; [|done]. simpl.
    by destruct (Ascii.eqb_spec c " "%char).
Qed.

(** X8.  The pie chart labels a check with the first two words of its
    name: the label is a prefix of the name, what it leaves out starts
    with a space, it holds at most one space, and it is the whole name
    exactly when the name holds at most one space.  The value charted for
    a check is never [NaN]; it is [0] exactly when the check has no last
    run or a falsy [result_value], which are the checks whose card shows
    'N/A'. *)
Theorem pie_chart_data (toFixed : number -> nat -> string) (c : HealthCheck) :
  (∃ rest, name c = label (name c) +:+ rest
           ∧ (rest = "" ∨ ∃ r, rest = String " "%char r))
  ∧ spaces (label (name c)) ≤ 1
  ∧ (label (name c) = name c ↔ spaces (name c) ≤ 1)
  ∧ chart_value c ≠ NaN
  ∧ (chart_value c = of_Z 0
     ↔ default false (truthy <$> HealthCheckCard.last_result_value c) = false)
  ∧ (chart_value c = of_Z 0 -> HealthCheckCard.formatValue toFixed c = "N/A").
Proof.
  assert (∀ s, (∃ rest, s = label s +:+ rest
                        ∧ (rest = "" ∨ ∃ r, rest = String " "%char r)
                        ∧ (rest = "" ↔ spaces s ≤ 1))
               ∧ spaces (label s) ≤ 1) as Hlabel.
  { intros s. unfold label.
    pose proof (join_split s) as Hjoin.
    destruct (split_space_words s) as [Hwords Hlen].
    destruct (split_space s) as [|w1 [|w2 ws]]; [done| |].
    - simpl in *. subst s. split; [|lia].
      exists "". split; [by rewrite ClientFacts.append_empty_r|].
      split; [by left|]. split; [lia|done].
    - apply Forall_cons in Hwords as [Hw1 Hwords].
      apply Forall_cons in Hwords as [Hw2 Hwords].
      change (take 2 (w1 :: w2 :: ws)) with [w1; w2].
      rewrite concat_cons_cons in Hjoin.
      change (String.concat " " [w1; w2]) with (w1 +:+ " " +:+ w2).
      split; [|rewrite !spaces_app, Hw1, Hw2; simpl; lia].
      destruct ws as [|w3 ws].
      + exists "". simpl in *. subst s.
        split; [by rewrite ClientFacts.append_empty_r|].
        split; [by left|]. split; [lia|done].
      + exists (" " +:+ String.concat " " (w3 :: ws)).
        rewrite concat_cons_cons in Hjoin. simpl in Hlen.
        split; [|split; [right; by eexists|split; [done|lia]]].
        rewrite <- Hjoin.
        by rewrite <- !ClientFacts.append_assoc. }
  split_and!.
  - destruct (Hlabel (name c)) as [(rest & Hrest & Hsp & _) _]. by exists rest.
  - apply Hlabel.
  - destruct (Hlabel (name c)) as [(rest & Hrest & Hsp & Hiff) Hle]. split.
    + intros Heq. by rewrite <- Heq.
    + intros Hle'. apply Hiff in Hle' as ->.
      by rewrite ClientFacts.append_empty_r in Hrest.
  - unfold chart_value.
    destruct (HealthCheckCard.last_result_value c) as [[]|]; done.
  - unfold chart_value.
    destruct (HealthCheckCard.last_result_value c) as [[]|]; simpl; split; done.
  - unfold chart_value, HealthCheckCard.formatValue.
    destruct (HealthCheckCard.last_result_value c) as [[]|]; simpl; done.
Qed.

Example label_of_three_words :
  label "Model Inference Latency" = "Model Inference"
  ∧ label "Drift" = "Drift"
  ∧ label " Leading space" = " Leading".
Proof. by repeat split. Qed.

End DashboardChartsFacts.
